(** * Newclid ratio predicates and proof-trace layering

    A shallow embedding of
    - [src/newclid/predicates/equal_ratios.py] (the [EqRatio] and [EqRatio3]
      predicates), and
    - [src/newclid/visualization/vis_proof.py] (the layered proof graph built
      by [parse_proof_relations] and [adjust_node_layers]),
    followed by the properties established about them.

    Part I holds the definitions, Part II the lemmas and theorems. *)

From Stdlib Require Import ZArith Lia List Permutation Sorted.
From stdpp Require Import base list strings gmap sorting pretty.

Local Open Scope Z_scope.

(* [set_solver] clears hypotheses that earlier steps have already consumed. *)
#[local] Set Warnings "-clear-no-such-hyp".

(* ===================================================================== *)
(** * Part I: definitions                                                 *)
(* ===================================================================== *)

(** ** Python conventions *)

(** The exceptions the embedded code can raise on its own. *)
Inductive exn : Type :=
| ValueError      (* tuple unpacking with the wrong number of values *)
| IndexError      (* sequence index out of range *)
| KeyError        (* missing dictionary key *)
| AssertionError.

(** Outcome of a Python call: a returned value or a raised exception. *)
Inductive result (A : Type) : Type :=
| Ok (x : A)
| Raise (e : exn).
Arguments Ok {A} x.
Arguments Raise {A} e.

(** A three-way comparison that is a total order: what Python's [<] and [==]
    amount to on keys such as strings, integers and tuples of them. *)
Class TotalCmp {A : Type} (cmp : A → A → comparison) : Prop := {
  cmp_eq x y : cmp x y = Eq ↔ x = y;
  cmp_antisym x y : cmp y x = CompOpp (cmp x y);
  cmp_trans x y z c : cmp x y = c → cmp y z = c → cmp x z = c
}.

(** [not (y < x)]: the order a sort establishes between neighbours. *)
Definition cmp_le {K : Type} (cmp : K → K → comparison) (x y : K) : Prop :=
  cmp x y ≠ Gt.

(** Python compares lists position by position. *)
#[export] Instance list_compare_total {A} (cmp : A → A → comparison) `{!TotalCmp cmp} :
  TotalCmp (list_compare cmp).
Proof.
  split.
  - apply list_compare_refl, cmp_eq.
  - intros xs ys. apply list_compare_antisym; [apply cmp_eq | apply cmp_antisym].
  - intros xs ys zs c. apply list_compare_trans;
      [apply cmp_eq | apply cmp_trans | apply cmp_antisym].
Qed.

Section py_builtins.
Context {A K : Type} (cmp : K → K → comparison) (key : A → K).

(** [key x < key y] *)
Definition key_lt (x y : A) : bool :=
  match cmp (key x) (key y) with Lt => true | _ => false end.

(** One step of a stable insertion sort: [x] stood before every element of
    [l] in the input, so it stays before the elements whose key is not
    smaller. *)
Fixpoint insert_sorted (x : A) (l : list A) : list A :=
  match l with
  | [] => [x]
  | y :: l' => if key_lt y x then y :: insert_sorted x l' else x :: l
  end.

(** [sorted(l, key=key)]: Python's sort is stable, and every stable sort
    returns the same list. *)
Definition sorted (l : list A) : list A := foldr insert_sorted [] l.

(** [min(x, y, key=key)]: the first argument wins a tie. *)
Definition py_min (x y : A) : A := if key_lt y x then y else x.
End py_builtins.

(** ** Point names and their sort key *)

(** [cls.custom_key] is inherited from the [Predicate] base class
    ([newclid.predicates.predicate]), outside [equal_ratios.py]; it is a
    parameter here: a function from point names to keys that Python can
    compare. *)
Class PointKey : Type := {
  key : Type;
  key_cmp : key → key → comparison;
  key_cmp_total :: TotalCmp key_cmp;
  custom_key : string → key
}.

(** ** [EqRatio3.preparse] *)

Section canonical.
Context `{PK : PointKey}.

(** [lambda pair: [cls.custom_key(arg) for arg in pair]] *)
Definition pair_key (pair : string * string) : list key :=
  [custom_key pair.1; custom_key pair.2].

(** [lambda pair: [[cls.custom_key(arg[0]), cls.custom_key(arg[1])] for arg in pair]] *)
Definition groups_key (groups : list (string * string)) : list (list key) :=
  (λ arg, [custom_key arg.1; custom_key arg.2]) <$> groups.

(** [sum(groups, ())] on a sequence of pairs *)
Definition sum_pairs (groups : list (string * string)) : list string :=
  groups ≫= λ pair, [pair.1; pair.2].

(** [len(set(t))] *)
Definition len_set (t : list string) : nat :=
  size (list_to_set t : gset string).

Definition EqRatio3_preparse (args : list string) : result (option (list string)) :=
  match args with
  | [a; b; c; d; m; n] =>
      if bool_decide (len_set [a; c; m] < 3)%nat || bool_decide (len_set [b; d; n] < 3)%nat
      then Ok None
      else
        let groups := [(a, b); (c, d); (m, n)] in
        let groups1 := [(b, a); (d, c); (n, m)] in
        let sorted_groups := sorted (list_compare key_cmp) pair_key groups in
        let sorted_groups1 := sorted (list_compare key_cmp) pair_key groups1 in
        Ok (Some (sum_pairs
                    (py_min (list_compare (list_compare key_cmp)) groups_key
                            sorted_groups sorted_groups1)))
  | _ => Raise ValueError
  end.

(** ** Notions used to state the properties of [preparse] *)

(** Reversing a pair. *)
Definition swap_pair (pair : string * string) : string * string := (pair.2, pair.1).

(** The choice [EqRatio3.preparse] makes between the two sorted readings. *)
Definition canon (groups : list (string * string)) : list (string * string) :=
  py_min (list_compare (list_compare key_cmp)) groups_key
    (sorted (list_compare key_cmp) pair_key groups)
    (sorted (list_compare key_cmp) pair_key (swap_pair <$> groups)).

(** The rejection test of [EqRatio3.preparse]. *)
Definition degenerate (a c m b d n : string) : bool :=
  bool_decide (len_set [a; c; m] < 3)%nat || bool_decide (len_set [b; d; n] < 3)%nat.
End canonical.

(** ** Statements, dependencies, and the collaborators of the predicates *)

(** The two [Predicate] subclasses of [equal_ratios.py]. *)
Inductive predicate : Type := EqRatio | EqRatio3.

(** [Statement]: a predicate and its arguments. The dependency graph a
    statement points to is shared by the whole session; its closure table is
    the state threaded through the operations below. *)
Record Statement (Point : Type) : Type := mkStatement {
  stmt_predicate : predicate;
  stmt_args : list Point
}.
Arguments mkStatement {Point} _ _.
Arguments stmt_predicate {Point} _.
Arguments stmt_args {Point} _.

(** [Dependency]: a statement, the reason (rule tag) and the statements it
    was derived from. *)
Record Dependency (Point : Type) : Type := mkDependency {
  dep_statement : Statement Point;
  dep_reason : string;
  dep_why : list (Statement Point)
}.
Arguments mkDependency {Point} _ _ _.
Arguments dep_statement {Point} _.
Arguments dep_reason {Point} _.
Arguments dep_why {Point} _.

(** [statement.with_new(new_predicate, new_args)] *)
Definition Statement_with_new {Point} (s : Statement Point)
    (new_predicate : predicate) (new_args : list Point) : Statement Point :=
  mkStatement new_predicate new_args.

(** [dep.with_new(statement)]: same reason and antecedents, new statement. *)
Definition Dependency_with_new {Point} (dep : Dependency Point)
    (s : Statement Point) : Dependency Point :=
  mkDependency s (dep_reason dep) (dep_why dep).

(** Modelled from the spec: [Dependency.mk] lives in
    [newclid.dependencies.dependency], outside [equal_ratios.py]. Following
    section 4.3 ([make_fact(statement, rule_tag, antecedents)] yields a fact
    that owns the statement, the rule tag and the ordered sequence of
    antecedents) it is the plain constructor. *)
Definition Dependency_mk {Point} (s : Statement Point) (reason : string)
    (why : list (Statement Point)) : Dependency Point :=
  mkDependency s reason why.

(** Modelled from the spec: the closure table ([newclid.algebraic_reasoning.tables],
    outside [equal_ratios.py]) through the interface of section 4.2.
    [get_length] and [get_equal_difference_up_to] build the linear term
    "without touching stored state"; [expr_delta] ([holds]) and [table_why]
    ([explain]) are queries; [add_expr] is the one mutator, and it may raise. *)
Class Table (Point : Type) : Type := {
  table : Type;
  Length : Type;
  SumCV : Type;
  Ratio_Chase : string;
  get_length : Point → Point → Length;
  get_equal_difference_up_to : Length → Length → Length → Length → SumCV;
  add_expr : SumCV → Dependency Point → table → result table;
  expr_delta : SumCV → table → bool;
  table_why : SumCV → table → list (Dependency Point)
}.

(** The Numeric Validator capability ([Point.num], [close_enough]): external
    floating-point code, taken as given. *)
Class Numeric (Point : Type) : Type := {
  num : Type;
  distance : Point → Point → num;
  num_div : num → num → num;
  close_enough : num → num → bool
}.

(** The symbols graph and the [EqAngle] predicate that [EqRatio] defers to:
    both live outside [equal_ratios.py]. *)
Class Symbols (Point : Type) : Type := {
  DependencyGraph : Type;
  names2points : DependencyGraph → list string → result (list Point);
  EqAngle_preparse : list string → result (option (list string));
  EqAngle_parse : list string → DependencyGraph → result (option (list Point))
}.

(** ** The session monad: closure-table state and exceptions *)

Section monad.
Context {Point : Type} `{T : Table Point}.

Definition M (A : Type) : Type := table → result (A * table).

Definition ret {A} (x : A) : M A := λ σ, Ok (x, σ).

Definition bind {A B} (m : M A) (k : A → M B) : M B :=
  λ σ, match m σ with
       | Ok (x, σ') => k x σ'
       | Raise e => Raise e
       end.

(** a pure computation that may raise *)
Definition lift {A} (r : result A) : M A :=
  λ σ, match r with Ok x => Ok (x, σ) | Raise e => Raise e end.

(** a query of the table *)
Definition gets {A} (f : table → A) : M A := λ σ, Ok (f σ, σ).

(** a mutation of the table *)
Definition modify (f : table → result table) : M unit :=
  λ σ, match f σ with Ok σ' => Ok (tt, σ') | Raise e => Raise e end.

(** [for x in l: body(x)] *)
Fixpoint for_each {A} (l : list A) (body : A → M unit) : M unit :=
  match l with
  | [] => ret tt
  | x :: l' => bind (body x) (λ _, for_each l' body)
  end.
End monad.

Notation "'let*' x ':=' m 'in' k" := (bind m (λ x, k))
  (at level 10, x name, m at level 100, k at level 200, only parsing).
Notation "m ';;' k" := (bind m (λ _, k))
  (at level 100, right associativity, only parsing).

(** ** [class EqRatio(Predicate)] *)

(** Modelled from the spec: [newclid.tools.reshape] lives outside
    [equal_ratios.py]. Section 6 reads [eqratio A B C D E F G H] as consecutive
    groups of four points, and the loops below unpack each group into four
    names; a ragged argument list cannot be unpacked that way and is an
    error. *)
Fixpoint reshape4 {A} (l : list A) : result (list (A * A * A * A)) :=
  match l with
  | [] => Ok []
  | a :: b :: c :: d :: l' =>
      match reshape4 l' with
      | Ok groups => Ok ((a, b, c, d) :: groups)
      | Raise e => Raise e
      end
  | _ => Raise AssertionError
  end.

Section EqRatio.
Context {Point : Type} `{T : Table Point} `{Nm : Numeric Point} `{Sy : Symbols Point}.

Definition EqRatio_preparse (args : list string) : result (option (list string)) :=
  EqAngle_preparse args.

Definition EqRatio_parse (args : list string) (dep_graph : DependencyGraph)
    : result (option (list Point)) :=
  EqAngle_parse args dep_graph.

(** The loop of [check_numerical]: [ratio] is the ratio of the group seen
    last ([None] before the first group). *)
Fixpoint check_numerical_loop (ratio : option num)
    (groups : list (Point * Point * Point * Point)) : bool :=
  match groups with
  | [] => true
  | (a, b, c, d) :: groups' =>
      let _ratio := num_div (distance a b) (distance c d) in
      match ratio with
      | Some r =>
          if negb (close_enough r _ratio) then false
          else check_numerical_loop (Some _ratio) groups'
      | None => check_numerical_loop (Some _ratio) groups'
      end
  end.

Definition EqRatio_check_numerical (statement : Statement Point) : M bool :=
  let* groups := lift (reshape4 (stmt_args statement)) in
  ret (check_numerical_loop None groups).

(** The [while i < len(points)] loop of [_prep_ar]; [rest] is [points[i:]],
    so that [i < len(points)] reads [rest ≠ []] and [i += 4] drops four
    elements. Reading [points[i + k]] past the end raises [IndexError]. *)
Fixpoint prep_ar_loop (points rest : list Point) : result (list SumCV) :=
  match rest with
  | [] => Ok []
  | pi :: pi1 :: pi2 :: pi3 :: rest' =>
      match points with
      | p0 :: p1 :: p2 :: p3 :: _ =>
          match prep_ar_loop points rest' with
          | Ok eqs =>
              Ok (get_equal_difference_up_to
                    (get_length p0 p1) (get_length p2 p3)
                    (get_length pi pi1) (get_length pi2 pi3) :: eqs)
          | Raise e => Raise e
          end
      | _ => Raise IndexError
      end
  | _ => Raise IndexError
  end.

(** [_prep_ar]: the equations, the table being the session state. The
    equations are accumulated front to back, in the order of the groups. *)
Definition EqRatio_prep_ar (statement : Statement Point) : result (list SumCV) :=
  let points := stmt_args statement in
  prep_ar_loop points (drop 4 points).

Definition EqRatio_add (dep : Dependency Point) : M unit :=
  let* eqs := lift (EqRatio_prep_ar (dep_statement dep)) in
  for_each eqs (λ eq, modify (add_expr eq dep)).

Definition EqRatio_why (statement : Statement Point) : M (Dependency Point) :=
  let* eqs := lift (EqRatio_prep_ar statement) in
  let* why := gets (λ σ, eqs ≫= λ eq, table_why eq σ) in
  ret (Dependency_mk statement Ratio_Chase (dep_statement <$> why)).

Definition EqRatio_check (statement : Statement Point) : M bool :=
  let* eqs := lift (EqRatio_prep_ar statement) in
  gets (λ σ, forallb (λ eq, expr_delta eq σ) eqs).
End EqRatio.

(** [EqRatio.to_constructive]: [None] stands for falling off the end of the
    function, which returns Python's [None]. *)
Definition EqRatio_to_constructive (point : string) (args : list string)
    : result (option string) :=
  match args with
  | [a; b; c; d; e; f; g; h] =>
      if bool_decide (point = h) then
        Ok (Some ("eqratio " +:+ h +:+ " " +:+ a +:+ " " +:+ b +:+ " " +:+ c +:+ " "
                  +:+ d +:+ " " +:+ e +:+ " " +:+ f +:+ " " +:+ g))
      else if bool_decide (point = g) then
        Ok (Some ("eqratio " +:+ g +:+ " " +:+ a +:+ " " +:+ b +:+ " " +:+ c +:+ " "
                  +:+ d +:+ " " +:+ e +:+ " " +:+ f +:+ " " +:+ h))
      else if bool_decide (point = f) then
        Ok (Some ("eqratio " +:+ f +:+ " " +:+ c +:+ " " +:+ d +:+ " " +:+ a +:+ " "
                  +:+ b +:+ " " +:+ g +:+ " " +:+ h +:+ " " +:+ e))
      else if bool_decide (point = e) then
        Ok (Some ("eqratio " +:+ e +:+ " " +:+ c +:+ " " +:+ d +:+ " " +:+ a +:+ " "
                  +:+ b +:+ " " +:+ g +:+ " " +:+ h +:+ " " +:+ f))
      else if bool_decide (point = d) then
        Ok (Some ("eqratio " +:+ d +:+ " " +:+ e +:+ " " +:+ f +:+ " " +:+ g +:+ " "
                  +:+ h +:+ " " +:+ a +:+ " " +:+ b +:+ " " +:+ c))
      else if bool_decide (point = c) then
        Ok (Some ("eqratio " +:+ c +:+ " " +:+ e +:+ " " +:+ f +:+ " " +:+ g +:+ " "
                  +:+ h +:+ " " +:+ a +:+ " " +:+ b +:+ " " +:+ d))
      else if bool_decide (point = b) then
        Ok (Some ("eqratio " +:+ b +:+ " " +:+ g +:+ " " +:+ h +:+ " " +:+ e +:+ " "
                  +:+ f +:+ " " +:+ c +:+ " " +:+ d +:+ " " +:+ a))
      else if bool_decide (point = a) then
        Ok (Some ("eqratio " +:+ a +:+ " " +:+ g +:+ " " +:+ h +:+ " " +:+ e +:+ " "
                  +:+ f +:+ " " +:+ c +:+ " " +:+ d +:+ " " +:+ b))
      else Ok None
  | _ => Raise ValueError
  end.

(** ** [class EqRatio3(Predicate)] *)

(** The methods [Statement.check_numerical], [Statement.check] and
    [Dependency.add] that [EqRatio3] calls on the statements it builds belong
    to classes outside [equal_ratios.py]; they are parameters. *)
Class Dispatch (Point : Type) `{T : Table Point} : Type := {
  Statement_check_numerical : Statement Point → M bool;
  Statement_check : Statement Point → M bool;
  Dependency_add : Dependency Point → M unit
}.

Section EqRatio3.
Context {Point : Type} `{D : Dispatch Point} `{Sy : Symbols Point}.

Definition EqRatio3_parse `{PK : PointKey} (args : list string)
    (dep_graph : DependencyGraph) : result (option (list Point)) :=
  match EqRatio3_preparse args with
  | Ok preparse =>
      match preparse with
      | Some (_ :: _ as names) =>
          match names2points dep_graph names with
          | Ok points => Ok (Some points)
          | Raise e => Raise e
          end
      | _ => Ok None        (* [None] and the empty tuple are falsy *)
      end
  | Raise e => Raise e
  end.

(** The three primitive statements of [eqratio3 a b c d m n], as every
    method of the class builds them. *)
Definition eqr1 (statement : Statement Point) (a b c d m n : Point) :=
  Statement_with_new statement EqRatio [m; a; m; c; n; b; n; d].
Definition eqr2 (statement : Statement Point) (a b c d m n : Point) :=
  Statement_with_new statement EqRatio [m; a; a; c; b; n; b; d].
Definition eqr3 (statement : Statement Point) (a b c d m n : Point) :=
  Statement_with_new statement EqRatio [m; c; a; c; n; d; b; d].

(** [x() and y() and z()] on boolean results *)
Definition and3 (x y z : M bool) : M bool :=
  let* bx := x in
  if bx then (let* by_ := y in if by_ then z else ret by_) else ret bx.

Definition EqRatio3_check_numerical (statement : Statement Point) : M bool :=
  match stmt_args statement with
  | [a; b; c; d; m; n] =>
      and3 (Statement_check_numerical (eqr1 statement a b c d m n))
           (Statement_check_numerical (eqr2 statement a b c d m n))
           (Statement_check_numerical (eqr3 statement a b c d m n))
  | _ => lift (Raise ValueError)
  end.

Definition EqRatio3_check (statement : Statement Point) : M bool :=
  match stmt_args statement with
  | [a; b; c; d; m; n] =>
      and3 (Statement_check (eqr1 statement a b c d m n))
           (Statement_check (eqr2 statement a b c d m n))
           (Statement_check (eqr3 statement a b c d m n))
  | _ => lift (Raise ValueError)
  end.

Definition EqRatio3_add (dep : Dependency Point) : M unit :=
  let statement := dep_statement dep in
  match stmt_args statement with
  | [a; b; c; d; m; n] =>
      Dependency_add (Dependency_with_new dep (eqr1 statement a b c d m n)) ;;
      Dependency_add (Dependency_with_new dep (eqr2 statement a b c d m n)) ;;
      Dependency_add (Dependency_with_new dep (eqr3 statement a b c d m n))
  | _ => lift (Raise ValueError)
  end.

Definition EqRatio3_why (statement : Statement Point) : M (Dependency Point) :=
  match stmt_args statement with
  | [a; b; c; d; m; n] =>
      ret (Dependency_mk statement Ratio_Chase
             [eqr1 statement a b c d m n;
              eqr2 statement a b c d m n;
              eqr3 statement a b c d m n])
  | _ => lift (Raise ValueError)
  end.
End EqRatio3.

(** Modelled from the spec: by section 4.1 an operation on a compound
    predicate is "the same operation applied to each decomposed primitive",
    so the statement-level methods hand an [eqratio] statement to the
    [EqRatio] class method of the same name. *)
Class PlainDispatch (Point : Type) `{D : Dispatch Point} `{Nm : Numeric Point} : Prop := {
  check_numerical_EqRatio s :
    stmt_predicate s = EqRatio → Statement_check_numerical s = EqRatio_check_numerical s;
  check_EqRatio s :
    stmt_predicate s = EqRatio → Statement_check s = EqRatio_check s;
  add_EqRatio dep :
    stmt_predicate (dep_statement dep) = EqRatio → Dependency_add dep = EqRatio_add dep
}.

(** ** [vis_proof.py]: the layered proof graph *)

(** What the regular expressions of the loop body of [parse_proof_relations]
    read off one stripped, non-empty line of the [<proof>] block. *)
Inductive proof_line : Type :=
| NoConclusion
    (* [(.*?\[\d{3}\])] finds no conclusion: the line is skipped *)
| NoRule (concl_part concl_label : string)
    (* a conclusion and its label, but [^(\w+)] finds no rule name after it *)
| Derivation (concl_part concl_label rule_name : string)
             (premise_labels : list string)
    (* conclusion, label, rule name, and what [(\d{3})] finds after the
       conclusion *).

(** The local variables of [parse_proof_relations], which it returns. *)
Record graph : Type := mkGraph {
  stmt_map : gmap string string;
  fact_nodes : gset string;
  rule_nodes : gset string;
  edges : list (string * string);
  node_layer : gmap string Z;
  initial_fact_nodes : gset string
}.

(** [f'r_{rule_name}_{len([rn for rn in rule_nodes if rn.startswith(f"r_{rule_name}")]) + 1}'] *)
Definition new_rule_node (rule_name : string) (rule_nodes : gset string) : string :=
  let used := filter (λ rn, String.prefix ("r_" +:+ rule_name) rn = true) rule_nodes in
  "r_" +:+ rule_name +:+ "_" +:+ pretty (size used + 1)%nat.

(** [max(l)] of a non-empty list; on the empty list Python raises
    [ValueError]. *)
Definition py_max (l : list Z) : result Z :=
  match l with
  | [] => Raise ValueError
  | x :: l' => Ok (foldl Z.max x l')
  end.

(** [[node_layer[p] for p in valid_premises]]: a missing key raises. *)
Fixpoint layers_of (node_layer : gmap string Z) (ps : list string) : result (list Z) :=
  match ps with
  | [] => Ok []
  | p :: ps' =>
      match node_layer !! p with
      | None => Raise KeyError
      | Some k =>
          match layers_of node_layer ps' with
          | Ok ks => Ok (k :: ks)
          | Raise e => Raise e
          end
      end
  end.

(** The conclusion bookkeeping every line with a conclusion goes through. *)
Definition record_conclusion (g : graph) (concl_part concl_label : string) : graph :=
  mkGraph (<[concl_label := concl_part]> (stmt_map g))
          ({[concl_label]} ∪ fact_nodes g)
          (rule_nodes g)
          (edges g)
          (match node_layer g !! concl_label with
           | Some _ => node_layer g
           | None => <[concl_label := 1]> (node_layer g)
           end)
          (initial_fact_nodes g).

(** One iteration of [for line in proof_lines]. *)
Definition parse_line (g : graph) (line : proof_line) : result graph :=
  match line with
  | NoConclusion => Ok g
  | NoRule concl_part concl_label => Ok (record_conclusion g concl_part concl_label)
  | Derivation concl_part concl_label rule_name premise_labels =>
      let g1 := record_conclusion g concl_part concl_label in
      let rule_node := new_rule_node rule_name (rule_nodes g1) in
      let rule_nodes' := {[rule_node]} ∪ rule_nodes g1 in
      let valid_premises :=
        filter (λ p, is_Some (stmt_map g1 !! p)) premise_labels in
      match valid_premises with
      | [] =>
          (* [if not valid_premises: continue] *)
          Ok (mkGraph (stmt_map g1) (fact_nodes g1) rule_nodes' (edges g1)
                      (node_layer g1) (initial_fact_nodes g1))
      | _ :: _ =>
          match layers_of (node_layer g1) valid_premises with
          | Raise e => Raise e
          | Ok prem_layers =>
              match py_max prem_layers with
              | Raise e => Raise e
              | Ok max_prem_layer =>
                  let rule_layer := max_prem_layer + 1 in
                  let concl_layer := rule_layer + 1 in
                  Ok (mkGraph (stmt_map g1) (fact_nodes g1) rule_nodes'
                        (edges g1 ++ ((λ p, (p, rule_node)) <$> valid_premises)
                                  ++ [(rule_node, concl_label)])
                        (<[concl_label := concl_layer]>
                           (<[rule_node := rule_layer]> (node_layer g1)))
                        (initial_fact_nodes g1))
              end
          end
      end
  end.

(** [for line in proof_lines: ...] *)
Fixpoint parse_lines (g : graph) (proof_lines : list proof_line) : result graph :=
  match proof_lines with
  | [] => Ok g
  | line :: proof_lines' =>
      match parse_line g line with
      | Ok g' => parse_lines g' proof_lines'
      | Raise e => Raise e
      end
  end.

(** [parse_proof_relations], from the point where the [<proof>] block has been
    found and cut into lines. *)
Definition parse_proof_relations (proof_lines : list proof_line)
    (initial_stmt_map : gmap string string) : result graph :=
  let initial_fact_nodes := dom initial_stmt_map in
  parse_lines
    (mkGraph initial_stmt_map initial_fact_nodes ∅ []
             (gset_to_gmap 1 initial_fact_nodes) initial_fact_nodes)
    proof_lines.

(** The body of [for rule_node in rule_nodes] in [adjust_node_layers]. *)
Definition adjust_rule (edges : list (string * string))
    (node_layer : gmap string Z) (rule_node : string) : gmap string Z :=
  let premises := fst <$> filter (λ e, e.2 = rule_node) edges in
  match premises with
  | [] => node_layer
  | _ :: _ =>
      let rule_layer := default 0 (node_layer !! rule_node) in
      if bool_decide (rule_layer `mod` 2 = 0) then
        let target_layer := rule_layer - 1 in
        foldl (λ nl p, <[p := target_layer]> nl) node_layer premises
      else node_layer
  end.

(** [adjust_node_layers] walking the rule nodes in the order [order]. *)
Definition adjust_node_layers_in (order : list string)
    (edges : list (string * string)) (node_layer : gmap string Z) : gmap string Z :=
  foldl (adjust_rule edges) node_layer order.

(** [adjust_node_layers]: Python leaves the iteration order of a set open;
    [elements] fixes one, and the results below hold for every order. *)
Definition adjust_node_layers (rule_nodes : gset string)
    (edges : list (string * string)) (node_layer : gmap string Z) : gmap string Z :=
  adjust_node_layers_in (elements rule_nodes) edges node_layer.

(** A fact label as [\[(\d{3})\]] captures it: three decimal digits. *)
Definition is_digit (c : Ascii.ascii) : bool :=
  let code := Ascii.N_of_ascii c in (48 <=? code)%N && (code <=? 57)%N.

Definition is_label (s : string) : bool :=
  match s with
  | String c1 (String c2 (String c3 EmptyString)) =>
      is_digit c1 && is_digit c2 && is_digit c3
  | _ => false
  end.

(** The labels one line mentions. *)
Definition line_labels (line : proof_line) : list string :=
  match line with
  | NoConclusion => []
  | NoRule _ concl_label => [concl_label]
  | Derivation _ concl_label _ premise_labels => concl_label :: premise_labels
  end.

(** ** Notions used to state the properties *)

Section property_notions.
Context {Point : Type} `{T : Table Point} `{Nm : Numeric Point}.

(** The points of a list of groups, in order. *)
Definition group_points (groups : list (Point * Point * Point * Point)) : list Point :=
  groups ≫= λ '(a, b, c, d), [a; b; c; d].

(** The ratio [|ab| / |cd|] of each group [(a, b, c, d)]. *)
Definition group_ratios (groups : list (Point * Point * Point * Point)) : list num :=
  (λ '(a, b, c, d), num_div (distance a b) (distance c d)) <$> groups.

(** Every ratio is close enough to the one just before it. *)
Definition close_to_previous (ratios : list num) : Prop :=
  ∀ i r r', ratios !! i = Some r → ratios !! S i = Some r' → close_enough r r' = true.

(** Every ratio after the first is close enough to the first. *)
Definition close_to_first (ratios : list num) : Prop :=
  ∀ i r0 r, ratios !! 0%nat = Some r0 → ratios !! S i = Some r → close_enough r0 r = true.

(** The equation [_prep_ar] builds for the first group and a later one. *)
Definition ratio_equation (first group : Point * Point * Point * Point) : SumCV :=
  let '(p0, p1, p2, p3) := first in
  let '(e, f, g, h) := group in
  get_equal_difference_up_to (get_length p0 p1) (get_length p2 p3)
                             (get_length e f) (get_length g h).

(** The statements of the facts the closure table's [why] returns for the
    equations [eqs], in order. *)
Definition gathered_from_table (eqs : list SumCV) (σ : table) : list (Statement Point) :=
  dep_statement <$> (eqs ≫= λ eq, table_why eq σ).
End property_notions.

(** ** Concrete collaborators for the examples *)

(** The plain dispatch of section 4.1, tied in two layers: [EqRatio3] only
    ever calls the statement-level methods on [eqratio] statements. *)
Definition eqratio_dispatch {Point : Type} `{T : Table Point} `{Nm : Numeric Point}
    : Dispatch Point :=
  {| Statement_check_numerical := EqRatio_check_numerical;
     Statement_check := EqRatio_check;
     Dependency_add := EqRatio_add |}.

Definition plain_dispatch {Point : Type} `{T : Table Point} `{Nm : Numeric Point}
    : Dispatch Point :=
  {| Statement_check_numerical s :=
       match stmt_predicate s with
       | EqRatio => EqRatio_check_numerical s
       | EqRatio3 => EqRatio3_check_numerical (D:=eqratio_dispatch) s
       end;
     Statement_check s :=
       match stmt_predicate s with
       | EqRatio => EqRatio_check s
       | EqRatio3 => EqRatio3_check (D:=eqratio_dispatch) s
       end;
     Dependency_add dep :=
       match stmt_predicate (dep_statement dep) with
       | EqRatio => EqRatio_add dep
       | EqRatio3 => EqRatio3_add (D:=eqratio_dispatch) dep
       end |}.

(** Points on a line, named by their coordinate; lengths are exact integers
    here, and two ratios are close when they differ by at most one. *)
Definition line_numeric : Numeric Z :=
  {| num := Z;
     distance p q := Z.abs (p - q);
     num_div := Z.div;
     close_enough x y := bool_decide (Z.abs (x - y) ≤ 1) |}.

(** A closure table that is a journal of the equations asserted so far: an
    equation holds when it was asserted, and its explanation is the list of
    the dependencies it was asserted with. *)
Definition journal : Type :=
  list ((Z * Z) * (Z * Z) * (Z * Z) * (Z * Z) * Dependency Z).

Definition journal_table : Table Z :=
  {| table := journal;
     Length := Z * Z;
     SumCV := (Z * Z) * (Z * Z) * (Z * Z) * (Z * Z);
     Ratio_Chase := "Ratio Chasing";
     get_length p q := (p, q);
     get_equal_difference_up_to l1 l2 l3 l4 := (l1, l2, l3, l4);
     add_expr eq dep σ := Ok (σ ++ [(eq, dep)]);
     expr_delta eq σ := bool_decide (eq ∈ σ.*1);
     table_why eq σ := snd <$> filter (λ entry, entry.1 = eq) σ |}.

(** Point names under their own order: the key of a name is the list of its
    character codes, compared position by position as Python compares
    strings. *)
#[export] Instance N_compare_total : TotalCmp N.compare.
Proof.
  split.
  - apply N.compare_eq_iff.
  - intros x y. apply N.compare_antisym.
  - intros x y z [] Hxy Hyz.
    + apply N.compare_eq_iff in Hxy, Hyz. subst. apply N.compare_refl.
    + rewrite N.compare_lt_iff in *. lia.
    + rewrite N.compare_gt_iff in *. lia.
Qed.

Definition name_codes (s : string) : list N :=
  Ascii.N_of_ascii <$> String.list_ascii_of_string s.

Definition name_key : PointKey :=
  {| key := list N; key_cmp := list_compare N.compare; custom_key := name_codes |}.

(** A key that cannot tell two names apart. *)
#[export] Instance unit_compare_total : TotalCmp (λ _ _ : unit, Eq).
Proof. split; [by intros [] []|done|by intros ? ? ? [] ]. Qed.

Definition blind_key : PointKey :=
  {| key := unit; key_cmp := λ _ _, Eq; custom_key := λ _, tt |}.

(** Inputs of the examples. *)
Definition thales : Statement Z := mkStatement EqRatio3 [0; 1; 2; 3; 4; 5].
Definition thales_dep : Dependency Z := mkDependency thales "premise" [].

Definition chain : Statement Z :=
  mkStatement EqRatio [0; 1; 0; 1;  0; 2; 0; 1;  0; 3; 0; 1].
Definition chain_groups : list (Z * Z * Z * Z) :=
  [(0, 1, 0, 1); (0, 2, 0, 1); (0, 3, 0, 1)].


(** ** Notions used to state the properties of the proof graph *)

(** Rule nodes are told from fact labels by their [r_] prefix. *)
Definition rule_like (s : string) : Prop := String.prefix "r_" s = true.

(** The invariant of the loop of [parse_proof_relations]. *)
Record layered (g : graph) : Prop := {
  layered_stmts : dom (stmt_map g) = fact_nodes g;
  layered_facts f : f ∈ fact_nodes g → ¬ rule_like f;
  layered_rules r : r ∈ rule_nodes g → rule_like r;
  layered_dom x : is_Some (node_layer g !! x) → x ∈ fact_nodes g ∨ x ∈ rule_nodes g;
  layered_odd f : f ∈ fact_nodes g → ∃ k, node_layer g !! f = Some k ∧ Z.odd k = true;
  layered_even r k : r ∈ rule_nodes g → node_layer g !! r = Some k → Z.even k = true;
  layered_edges u v :
    (u, v) ∈ edges g →
    (u ∈ fact_nodes g ∧ v ∈ rule_nodes g) ∨ (u ∈ rule_nodes g ∧ v ∈ fact_nodes g);
  layered_premises r :
    r ∈ rule_nodes g → is_Some (node_layer g !! r) ↔ ∃ p, (p, r) ∈ edges g
}.

(** What [adjust_node_layers] keeps: facts on odd layers, rule nodes where
    [parse_proof_relations] put them. *)
Definition adjusted (g : graph) (nl : gmap string Z) : Prop :=
  (∀ f, f ∈ fact_nodes g → ∃ k, nl !! f = Some k ∧ Z.odd k = true) ∧
  (∀ r, r ∈ rule_nodes g → nl !! r = node_layer g !! r).

(** Inputs of the examples: one known fact, a derivation from it, and a
    derivation whose premise is unknown. *)
Definition problem_facts : gmap string string :=
  {[ "001" := "cong a b c d [001]" ]}.

(** The line [coll a b c [002] r00 [001]]. *)
Definition sound_line : proof_line :=
  Derivation "coll a b c [002]" "002" "r00" ["001"].

(** The line [coll a b c [002] r00 [999]]: its only premise is unknown. *)
Definition dangling_line : proof_line :=
  Derivation "coll a b c [002]" "002" "r00" ["999"].

(** ** Further collaborators and notions *)

(** Points on a line with exact ratios: two ratios are close only when they
    are equal. *)
Definition exact_numeric : Numeric Z :=
  {| num := Z;
     distance p q := Z.abs (p - q);
     num_div := Z.div;
     close_enough x y := bool_decide (x = y) |}.


(** ** Notions used to state further properties of the proof graph *)

(** The lines that reach the rule-node bookkeeping of the loop body. *)
Definition is_derivation (line : proof_line) : bool :=
  match line with
  | Derivation _ _ _ _ => true
  | _ => false
  end.

(** The conclusions the lines record, as (label, statement), in order. *)
Definition conclusions (proof_lines : list proof_line) : list (string * string) :=
  proof_lines ≫= λ line,
    match line with
    | NoConclusion => []
    | NoRule concl_part concl_label => [(concl_label, concl_part)]
    | Derivation concl_part concl_label _ _ => [(concl_label, concl_part)]
    end.

(** The character [_]. *)
Definition underscore : Ascii.ascii := Ascii.ascii_of_N 95.

(** No character of [s] is an underscore. *)
Fixpoint underscore_free (s : string) : bool :=
  match s with
  | EmptyString => true
  | String c s' => negb (Ascii.eqb c underscore) && underscore_free s'
  end.

(** The numbering invariant of the rule nodes: a node [r_X_k] is counted
    among the nodes that start with [r_X] at least [k] times. *)
Definition rule_numbered (rule_nodes : gset string) : Prop :=
  ∀ (X : string) (k : nat),
    "r_" +:+ X +:+ "_" +:+ pretty k ∈ rule_nodes →
    (k ≤ size (filter (λ rn, String.prefix ("r_" +:+ X) rn = true) rule_nodes))%nat.

(** What the loop of [parse_proof_relations] keeps whatever the labels are:
    every fact has a statement and a layer, every edge joins a fact and a
    rule node. *)
Record wired (g : graph) : Prop := {
  wired_stmts : dom (stmt_map g) = fact_nodes g;
  wired_layers f : f ∈ fact_nodes g → is_Some (node_layer g !! f);
  wired_edges u v :
    (u, v) ∈ edges g →
    (u ∈ fact_nodes g ∧ v ∈ rule_nodes g) ∨ (u ∈ rule_nodes g ∧ v ∈ fact_nodes g);
  wired_numbered : rule_numbered (rule_nodes g)
}.


(** ** [vis_proof.py]: the exported graph *)

(** [s.split('_')]; the empty list of the inner match is never met, since
    [split] returns at least one piece. *)
Fixpoint split_underscore (s : string) : list string :=
  match s with
  | EmptyString => [EmptyString]
  | String c s' =>
      if Ascii.eqb c underscore then EmptyString :: split_underscore s'
      else match split_underscore s' with
           | [] => [String c EmptyString]
           | w :: ws => String c w :: ws
           end
  end.

(** ['_'.join(rule_node.split('_')[1:])] *)
Definition rule_label (rule_node : string) : string :=
  String.concat "_" (drop 1 (split_underscore rule_node)).

(** The dictionaries [export_to_json] appends to [nodes] and [links]. *)
Record node_record : Type := mkNode {
  nd_id : string;
  nd_type : string;
  nd_label : string;
  nd_layer : Z;
  nd_shape : string
}.

Record link_record : Type := mkLink {
  lk_source : string;
  lk_target : string;
  lk_type : string
}.

Record json_data : Type := mkJson {
  json_nodes : list node_record;
  json_links : list link_record
}.

(** [for label in fact_nodes: nodes.append({...})], the labels taken in the
    order [labels]; [stmt_map[label]] raises on a missing key. *)
Fixpoint fact_records (stmt_map : gmap string string) (node_layer : gmap string Z)
    (initial_fact_nodes : gset string) (labels : list string) : result (list node_record) :=
  match labels with
  | [] => Ok []
  | label :: labels' =>
      let '(node_type, shape) :=
        if decide (label ∈ initial_fact_nodes) then ("initial_fact", "ellipse")
        else ("derived_fact", "box") in
      match stmt_map !! label with
      | None => Raise KeyError
      | Some text =>
          match fact_records stmt_map node_layer initial_fact_nodes labels' with
          | Ok nodes =>
              Ok (mkNode label node_type text (default 1 (node_layer !! label)) shape :: nodes)
          | Raise e => Raise e
          end
      end
  end.

(** [for rule_node in rule_nodes: nodes.append({...})] *)
Definition rule_records (node_layer : gmap string Z) (rules : list string) : list node_record :=
  (λ rule_node,
     mkNode rule_node "rule" (rule_label rule_node)
            (default 1 (node_layer !! rule_node)) "diamond") <$> rules.

(** [for u, v in edges: links.append({...})] *)
Definition link_records (edges : list (string * string)) : list link_record :=
  (λ '(u, v), mkLink u v "derivation") <$> edges.

(** The [json_data] that [export_to_json] builds and then writes to the
    file, the two sets walked in the orders [facts] and [rules]. *)
Definition export_json_data (stmt_map : gmap string string) (facts rules : list string)
    (edges : list (string * string)) (node_layer : gmap string Z)
    (initial_fact_nodes : gset string) : result json_data :=
  match fact_records stmt_map node_layer initial_fact_nodes facts with
  | Ok nodes => Ok (mkJson (nodes ++ rule_records node_layer rules) (link_records edges))
  | Raise e => Raise e
  end.

(** ** [vis_proof.py]: reading the data file *)


Section read_and_validate_data.
(** [str.strip] and [json.loads] are Python's own; [loads] gives [None]
    where [json.loads] raises [JSONDecodeError]. *)
Context {J : Type} (strip : string → string) (loads : string → option J).


End read_and_validate_data.


(** What one round of [adjust_node_layers] for [rule_node] writes: the layer
    below the rule node's at each of its premises, when that layer is even. *)
Definition overlay (edges : list (string * string)) (node_layer : gmap string Z)
    (rule_node : string) : gmap string Z :=
  let rule_layer := default 0 (node_layer !! rule_node) in
  if bool_decide (rule_layer `mod` 2 = 0) then
    gset_to_gmap (rule_layer - 1) (list_to_set (fst <$> filter (λ e, e.2 = rule_node) edges))
  else ∅.

(** A line that cites its own conclusion among its premises. *)
Definition self_citing (line : proof_line) : Prop :=
  match line with
  | Derivation _ concl_label _ premise_labels => concl_label ∈ premise_labels
  | _ => False
  end.

(** Every edge goes from a lower layer to a higher one. *)
Definition upward (edges : list (string * string)) (node_layer : gmap string Z) : Prop :=
  ∀ u v, (u, v) ∈ edges →
    ∃ ku kv, node_layer !! u = Some ku ∧ node_layer !! v = Some kv ∧ ku < kv.

(** The invariant of the loop of [parse_proof_relations] on a proof whose
    lines each conclude a label of their own. *)
Record ranked (g : graph) : Prop := {
  ranked_layered : layered g;
  ranked_numbered : rule_numbered (rule_nodes g);
  ranked_upward : upward (edges g) (node_layer g)
}.


(* ===================================================================== *)
(** * Part II: lemmas and theorems                                        *)
(* ===================================================================== *)

(** ** Comparisons *)

Section cmp_facts.
Context {K : Type} (cmp : K → K → comparison) `{!TotalCmp cmp}.

Lemma cmp_refl x : cmp x x = Eq.
Proof. by apply cmp_eq. Qed.

Lemma cmp_Lt_Gt x y : cmp x y = Lt ↔ cmp y x = Gt.
Proof. rewrite (cmp_antisym (cmp:=cmp) x y). destruct (cmp x y); simpl; split; congruence. Qed.

Lemma cmp_le_trans : Transitive (cmp_le cmp).
Proof.
  intros x y z Hxy Hyz. unfold cmp_le in *.
  destruct (cmp x y) eqn:Exy; [| |done].
  - apply cmp_eq in Exy as ->. done.
  - destruct (cmp y z) eqn:Eyz; [| |done].
    + apply cmp_eq in Eyz as ->. by rewrite Exy.
    + by rewrite (cmp_trans (cmp:=cmp) x y z Lt).
Qed.

Lemma cmp_le_antisym : AntiSymm eq (cmp_le cmp).
Proof.
  intros x y Hxy Hyx. unfold cmp_le in *.
  destruct (cmp x y) eqn:Exy; [by apply cmp_eq| |done].
  apply cmp_Lt_Gt in Exy. done.
Qed.
End cmp_facts.

(** ** [sorted] *)

Section sorted_facts.
Context {A K : Type} (cmp : K → K → comparison) `{!TotalCmp cmp} (key : A → K).

Abbreviation key_le := (λ x y, cmp_le cmp (key x) (key y)).

Lemma key_lt_spec x y : key_lt cmp key x y = true ↔ cmp (key x) (key y) = Lt.
Proof. unfold key_lt. destruct (cmp (key x) (key y)); split; congruence. Qed.

Lemma key_lt_flip x y : key_lt cmp key y x = false ↔ cmp_le cmp (key x) (key y).
Proof.
  unfold key_lt, cmp_le. rewrite (cmp_antisym (cmp:=cmp) (key x) (key y)).
  destruct (cmp (key x) (key y)); simpl; split; congruence.
Qed.

Lemma insert_sorted_perm x l : insert_sorted cmp key x l ≡ₚ x :: l.
Proof.
  induction l as [|y l IH]; simpl; [done|].
  destruct (key_lt cmp key y x); [|done].
  rewrite IH. apply Permutation_swap.
Qed.

Lemma sorted_perm l : sorted cmp key l ≡ₚ l.
Proof.
  induction l as [|x l IH]; simpl; [done|].
  by rewrite insert_sorted_perm, IH.
Qed.

Lemma insert_sorted_HdRel z x l :
  key_le z x → HdRel key_le z l → HdRel key_le z (insert_sorted cmp key x l).
Proof.
  intros Hzx Hl. destruct l as [|y l]; simpl; [by constructor|].
  destruct (key_lt cmp key y x); constructor; [|done].
  by apply HdRel_inv in Hl.
Qed.

Lemma insert_sorted_Sorted x l :
  Sorted key_le l → Sorted key_le (insert_sorted cmp key x l).
Proof.
  induction 1 as [|y l Hl IH Hy]; simpl; [by repeat constructor|].
  destruct (key_lt cmp key y x) eqn:E.
  - constructor; [done|]. apply insert_sorted_HdRel; [|done].
    apply key_lt_spec in E. unfold cmp_le. by rewrite E.
  - constructor; [by constructor|]. constructor. by apply key_lt_flip.
Qed.

Lemma sorted_Sorted l : Sorted key_le (sorted cmp key l).
Proof.
  induction l as [|x l IH]; simpl; [constructor|].
  by apply insert_sorted_Sorted.
Qed.

(** A stable sort leaves a sorted list as it is. *)
Lemma sorted_id l : Sorted key_le l → sorted cmp key l = l.
Proof.
  induction 1 as [|x l Hl IH Hx]; simpl; [done|].
  rewrite IH. destruct Hx as [|y l Hxy]; simpl; [done|].
  by apply key_lt_flip in Hxy as ->.
Qed.

Lemma sorted_idem l : sorted cmp key (sorted cmp key l) = sorted cmp key l.
Proof. apply sorted_id, sorted_Sorted. Qed.

Lemma insert_sorted_keys x l :
  key <$> insert_sorted cmp key x l = insert_sorted cmp id (key x) (key <$> l).
Proof.
  induction l as [|y l IH]; [done|].
  rewrite fmap_cons. simpl.
  change (key_lt cmp id (key y) (key x)) with (key_lt cmp key y x).
  destruct (key_lt cmp key y x); rewrite !fmap_cons; [by rewrite IH|done].
Qed.

Lemma sorted_keys l : key <$> sorted cmp key l = sorted cmp id (key <$> l).
Proof.
  induction l as [|x l IH]; simpl; [done|].
  by rewrite insert_sorted_keys, IH.
Qed.
End sorted_facts.

Section sorted_perm_facts.
Context {A K : Type} (cmp : K → K → comparison) `{!TotalCmp cmp} (key : A → K).

(** The keys of a sorted list depend on the multiset of keys only. *)
Lemma sorted_keys_perm l l' :
  key <$> l ≡ₚ key <$> l' → key <$> sorted cmp key l = key <$> sorted cmp key l'.
Proof.
  intros Hp. rewrite !sorted_keys by done.
  apply (@Sorted_unique _ (cmp_le cmp) (cmp_le_trans cmp) (cmp_le_antisym cmp)).
  - apply (sorted_Sorted cmp id).
  - apply (sorted_Sorted cmp id).
  - rewrite !sorted_perm. done.
Qed.

(** With an injective key the sorted list depends on the multiset only. *)
Lemma sorted_perm_inj l l' :
  Inj eq eq key → l ≡ₚ l' → sorted cmp key l = sorted cmp key l'.
Proof.
  intros Hinj Hp. apply (inj (fmap key)).
  apply sorted_keys_perm. by rewrite Hp.
Qed.
End sorted_perm_facts.

(** ** [EqRatio3.preparse] *)

Section py_min_facts.
Context {A K : Type} (cmp : K → K → comparison) `{!TotalCmp cmp} (key : A → K).

Lemma py_min_cases x y :
  (py_min cmp key x y = x ∧ cmp_le cmp (key x) (key y)) ∨
  (py_min cmp key x y = y ∧ cmp (key y) (key x) = Lt).
Proof.
  unfold py_min. destruct (key_lt cmp key y x) eqn:E.
  - right. split; [done|]. by apply key_lt_spec in E.
  - left. split; [done|]. by apply key_lt_flip in E.
Qed.

Lemma py_min_l x y : cmp_le cmp (key x) (key y) → py_min cmp key x y = x.
Proof. intros Hle. unfold py_min. by apply key_lt_flip in Hle as ->. Qed.

Lemma py_min_comm x y : Inj eq eq key → py_min cmp key x y = py_min cmp key y x.
Proof.
  intros Hinj. unfold py_min, key_lt.
  rewrite (cmp_antisym (cmp:=cmp) (key y) (key x)).
  destruct (cmp (key y) (key x)) eqn:E; simpl; [|done..].
  apply cmp_eq in E. by apply Hinj in E.
Qed.
End py_min_facts.

Section canonical_facts.
Context `{PK : PointKey}.

Lemma EqRatio3_preparse_unfold a b c d m n :
  EqRatio3_preparse [a; b; c; d; m; n] =
  if degenerate a c m b d n then Ok None
  else Ok (Some (sum_pairs (canon [(a, b); (c, d); (m, n)]))).
Proof. reflexivity. Qed.

Lemma len_set_le l : (len_set l ≤ length l)%nat.
Proof.
  unfold len_set. induction l as [|x l IH].
  - by rewrite list_to_set_nil, size_empty.
  - rewrite list_to_set_cons, size_union_alt, size_singleton. simpl.
    pose proof (subseteq_size (list_to_set l ∖ {[x]}) (list_to_set l : gset string)
                  ltac:(set_solver)). lia.
Qed.

Lemma len_set_3 a c m : (len_set [a; c; m] < 3)%nat ↔ a = c ∨ a = m ∨ c = m.
Proof.
  split.
  - intros Hlt.
    destruct (decide (a = c)); [tauto|]. destruct (decide (a = m)); [tauto|].
    destruct (decide (c = m)); [tauto|]. exfalso.
    unfold len_set in Hlt. rewrite size_list_to_set in Hlt; [simpl in Hlt; lia|].
    repeat constructor; set_solver.
  - intros Heq.
    assert (∃ x y, (list_to_set [a; c; m] : gset string) = list_to_set [x; y])
      as (x & y & Hxy).
    { destruct Heq as [->|[->| ->]].
      - exists c, m. set_solver.
      - exists m, c. set_solver.
      - exists a, m. set_solver. }
    unfold len_set. rewrite Hxy. pose proof (len_set_le [x; y]) as Hle.
    unfold len_set in Hle. simpl in *. lia.
Qed.

Lemma len_set_perm l l' : l ≡ₚ l' → len_set l = len_set l'.
Proof. intros Hp. unfold len_set. by rewrite (list_to_set_perm_L l l' Hp). Qed.

Lemma groups_key_fmap groups : groups_key groups = pair_key <$> groups.
Proof. reflexivity. Qed.

Lemma swap_pair_involutive (groups : list (string * string)) :
  swap_pair <$> (swap_pair <$> groups) = groups.
Proof.
  rewrite <-list_fmap_compose. rewrite <-(list_fmap_id groups) at 2.
  apply list_fmap_ext. by intros _ [??] _.
Qed.

(** [canon groups] is one of the two sorted readings. *)
Lemma canon_cases groups :
  let S := sorted (list_compare key_cmp) pair_key groups in
  let S1 := sorted (list_compare key_cmp) pair_key (swap_pair <$> groups) in
  (canon groups = S ∧
   cmp_le (list_compare (list_compare key_cmp)) (groups_key S) (groups_key S1)) ∨
  (canon groups = S1 ∧
   list_compare (list_compare key_cmp) (groups_key S1) (groups_key S) = Lt).
Proof. intros S S1. apply py_min_cases. apply _. Qed.

Lemma canon_perm_cases groups :
  canon groups ≡ₚ groups ∨ canon groups ≡ₚ swap_pair <$> groups.
Proof.
  destruct (canon_cases groups) as [[-> _]|[-> _]]; [left|right]; apply sorted_perm.
Qed.

Lemma canon_idempotent groups : canon (canon groups) = canon groups.
Proof.
  pose proof (list_compare_total key_cmp) as Hl.
  pose proof (list_compare_total (list_compare key_cmp)) as Hll.
  destruct (canon_cases groups) as [[HS Hle]|[HS Hlt]]; rewrite HS; unfold canon at 1.
  - rewrite sorted_idem by done. apply py_min_l; [done|].
    rewrite !groups_key_fmap in *.
    set (S := sorted (list_compare key_cmp) pair_key groups) in *.
    rewrite (sorted_keys_perm _ pair_key (swap_pair <$> S) (swap_pair <$> groups));
      [done|].
    unfold S. by rewrite sorted_perm.
  - rewrite sorted_idem by done. apply py_min_l; [done|].
    rewrite !groups_key_fmap in *.
    set (S1 := sorted (list_compare key_cmp) pair_key (swap_pair <$> groups)) in *.
    rewrite (sorted_keys_perm _ pair_key (swap_pair <$> S1) groups).
    + unfold cmp_le. by rewrite Hlt.
    + unfold S1. by rewrite sorted_perm, swap_pair_involutive.
Qed.

Lemma pair_key_inj : Inj eq eq custom_key → Inj eq eq pair_key.
Proof.
  intros Hinj [p q] [p' q'] Heq. unfold pair_key in Heq. simpl in Heq.
  injection Heq as Hp1 Hq1. apply Hinj in Hp1, Hq1. by subst.
Qed.

Lemma canon_perm groups groups' :
  Inj eq eq custom_key → groups' ≡ₚ groups → canon groups' = canon groups.
Proof.
  intros Hinj Hp. pose proof (list_compare_total key_cmp).
  pose proof (pair_key_inj Hinj) as Hpk.
  unfold canon. rewrite (sorted_perm_inj _ pair_key groups' groups) by done.
  rewrite (sorted_perm_inj _ pair_key (swap_pair <$> groups') (swap_pair <$> groups)); [done..|].
  by rewrite Hp.
Qed.

Lemma canon_swap groups :
  Inj eq eq custom_key → canon (swap_pair <$> groups) = canon groups.
Proof.
  intros Hinj. pose proof (list_compare_total key_cmp).
  pose proof (list_compare_total (list_compare key_cmp)).
  unfold canon. rewrite swap_pair_involutive. apply py_min_comm; [done|].
  pose proof (pair_key_inj Hinj) as Hpk.
  intros g g' Heq. rewrite !groups_key_fmap in Heq.
  revert Heq. apply (inj (fmap pair_key)).
Qed.
End canonical_facts.


Lemma name_codes_inj : Inj eq eq name_codes.
Proof.
  assert (Inj eq eq Ascii.N_of_ascii) as Hcode.
  { intros x y Hxy.
    rewrite <-(Ascii.ascii_N_embedding x), <-(Ascii.ascii_N_embedding y).
    by rewrite Hxy. }
  intros s1 s2 Heq. unfold name_codes in Heq.
  rewrite <-(String.string_of_list_ascii_of_string s1), <-(String.string_of_list_ascii_of_string s2).
  f_equal. revert Heq. apply (inj (fmap Ascii.N_of_ascii)).
Qed.

Section preparse_theorems.
Context {Point : Type} `{Sy : Symbols Point} `{PK : PointKey}.

Lemma degenerate_iff a c m b d n :
  degenerate a c m b d n = true ↔
  (a = c ∨ a = m ∨ c = m) ∨ (b = d ∨ b = n ∨ d = n).
Proof.
  unfold degenerate. rewrite orb_true_iff, !bool_decide_eq_true, !len_set_3. done.
Qed.

(** C2. [EqRatio3.preparse] returns [None] exactly when two of [a], [c],
    [m] or two of [b], [d], [n] coincide; an input with [a == m] is
    rejected, and [EqRatio3.parse] then returns [None] as well, so that no
    statement is built from it. *)
Theorem EqRatio3_preparse_rejects a b c d m n :
  (EqRatio3_preparse [a; b; c; d; m; n] = Ok None ↔
     (a = c ∨ a = m ∨ c = m) ∨ (b = d ∨ b = n ∨ d = n)) ∧
  EqRatio3_preparse [a; b; c; d; a; n] = Ok None ∧
  (∀ dep_graph, EqRatio3_parse [a; b; c; d; a; n] dep_graph = Ok None).
Proof.
  assert (∀ a b c d m n,
    EqRatio3_preparse [a; b; c; d; m; n] = Ok None ↔
    (a = c ∨ a = m ∨ c = m) ∨ (b = d ∨ b = n ∨ d = n)) as Hiff.
  { clear. intros a b c d m n.
    rewrite EqRatio3_preparse_unfold, <-degenerate_iff.
    destruct (degenerate a c m b d n); split; congruence. }
  assert (EqRatio3_preparse [a; b; c; d; a; n] = Ok None) as Hrej.
  { apply Hiff. tauto. }
  split; [apply Hiff|]. split; [done|].
  intros dep_graph. unfold EqRatio3_parse. by rewrite Hrej.
Qed.

Lemma canon_length groups : length (canon groups) = length groups.
Proof.
  destruct (canon_perm_cases groups) as [->| ->]; by rewrite ?length_fmap.
Qed.

Lemma canon_firsts_seconds groups :
  (fst <$> canon groups ≡ₚ fst <$> groups ∧ snd <$> canon groups ≡ₚ snd <$> groups) ∨
  (fst <$> canon groups ≡ₚ snd <$> groups ∧ snd <$> canon groups ≡ₚ fst <$> groups).
Proof.
  destruct (canon_perm_cases groups) as [->| ->]; [by left|right].
  rewrite <-!list_fmap_compose. done.
Qed.

(** C3. Canonicalisation is idempotent: if [EqRatio3.preparse] accepts a
    6-tuple and returns [canonical], then it returns [canonical] on
    [canonical]. *)
Theorem EqRatio3_preparse_idempotent a b c d m n canonical :
  EqRatio3_preparse [a; b; c; d; m; n] = Ok (Some canonical) →
  EqRatio3_preparse canonical = Ok (Some canonical).
Proof.
  rewrite EqRatio3_preparse_unfold.
  destruct (degenerate a c m b d n) eqn:Hdeg; [done|].
  intros [= <-].
  set (groups := [(a, b); (c, d); (m, n)]).
  pose proof (canon_length groups) as Hlen.
  pose proof (canon_firsts_seconds groups) as Hfs.
  pose proof (canon_idempotent groups) as Hidem.
  destruct (canon groups) as [|[p1 q1] [|[p2 q2] [|[p3 q3] [|]]]]; try done.
  change (sum_pairs [(p1, q1); (p2, q2); (p3, q3)]) with [p1; q1; p2; q2; p3; q3].
  rewrite EqRatio3_preparse_unfold, Hidem.
  replace (degenerate p1 p2 p3 q1 q2 q3) with false; [done|].
  symmetry. apply not_true_is_false. intros Hdeg'.
  apply not_true_iff_false in Hdeg. apply Hdeg. clear Hdeg Hidem Hlen.
  unfold degenerate in *. simpl in Hfs.
  destruct Hfs as [[Hf Hs]|[Hf Hs]].
  - by rewrite <-(len_set_perm _ _ Hf), <-(len_set_perm _ _ Hs).
  - rewrite orb_comm. by rewrite <-(len_set_perm _ _ Hf), <-(len_set_perm _ _ Hs).
Qed.

(** C4. With a sort key that tells point names apart (a total order on
    point identifiers), canonicalisation is invariant under the symmetries
    of [eqratio3]: an input whose three pairs are a rearrangement of
    [(a,b)], [(c,d)], [(m,n)], or of the three reversed pairs, has the same
    [EqRatio3.preparse] result. *)
Theorem EqRatio3_preparse_symmetric a b c d m n a' b' c' d' m' n' :
  Inj eq eq custom_key →
  [(a', b'); (c', d'); (m', n')] ≡ₚ [(a, b); (c, d); (m, n)] ∨
  [(a', b'); (c', d'); (m', n')] ≡ₚ [(b, a); (d, c); (n, m)] →
  EqRatio3_preparse [a'; b'; c'; d'; m'; n'] = EqRatio3_preparse [a; b; c; d; m; n].
Proof.
  intros Hinj Hsym. rewrite !EqRatio3_preparse_unfold.
  set (groups := [(a, b); (c, d); (m, n)]) in *.
  set (groups' := [(a', b'); (c', d'); (m', n')]) in *.
  assert (canon groups' = canon groups) as ->.
  { destruct Hsym as [Hp|Hp].
    - by apply canon_perm.
    - rewrite <-(canon_swap groups) by done. by apply canon_perm. }
  assert (degenerate a' c' m' b' d' n' = degenerate a c m b d n) as ->; [|done].
  unfold degenerate. subst groups groups'.
  destruct Hsym as [Hp|Hp];
    pose proof (fmap_Permutation fst _ _ Hp) as Hf;
    pose proof (fmap_Permutation snd _ _ Hp) as Hs;
    simpl in Hf, Hs;
    rewrite (len_set_perm _ _ Hf), (len_set_perm _ _ Hs); [done|apply orb_comm].
Qed.
End preparse_theorems.

Lemma EqRatio3_preparse_idempotent_witness :
  EqRatio3_preparse (PK:=name_key) ["C"; "D"; "A"; "B"; "M"; "N"]
    = Ok (Some ["A"; "B"; "C"; "D"; "M"; "N"]) ∧
  EqRatio3_preparse (PK:=name_key) ["A"; "B"; "C"; "D"; "M"; "N"]
    = Ok (Some ["A"; "B"; "C"; "D"; "M"; "N"]).
Proof.
  split; [vm_compute; reflexivity|].
  apply (EqRatio3_preparse_idempotent (PK:=name_key) "C" "D" "A" "B" "M" "N").
  vm_compute; reflexivity.
Defined.

Lemma EqRatio3_preparse_symmetric_witness :
  EqRatio3_preparse (PK:=name_key) ["N"; "M"; "B"; "A"; "D"; "C"]
  = EqRatio3_preparse (PK:=name_key) ["A"; "B"; "C"; "D"; "M"; "N"].
Proof.
  apply (EqRatio3_preparse_symmetric (PK:=name_key)).
  - exact name_codes_inj.
  - right. (* (n,m), (b,a), (d,c) rearranges the reversed pairs *)
    apply perm_trans with [("B", "A"); ("N", "M"); ("D", "C")];
      [apply perm_swap | apply perm_skip, perm_swap].
Defined.

(** The hypothesis on the key is needed: with a key that cannot tell names
    apart the stable sort keeps the input order, and two orderings of the
    same fact keep two different forms. *)
Example blind_key_not_symmetric :
  EqRatio3_preparse (PK:=blind_key) ["C"; "D"; "A"; "B"; "M"; "N"]
    = Ok (Some ["C"; "D"; "A"; "B"; "M"; "N"]) ∧
  EqRatio3_preparse (PK:=blind_key) ["A"; "B"; "C"; "D"; "M"; "N"]
    = Ok (Some ["A"; "B"; "C"; "D"; "M"; "N"]).
Proof. split; vm_compute; reflexivity. Qed.

(** [eqratio3 A B C D A N]: the first and the third line share the point
    [A]. *)
Example EqRatio3_preparse_shared_point :
  EqRatio3_preparse (PK:=name_key) ["A"; "B"; "C"; "D"; "A"; "N"] = Ok None.
Proof. vm_compute; reflexivity. Qed.

(** The canonical form may come from the reversed pairs. *)
Example EqRatio3_preparse_reversed :
  EqRatio3_preparse (PK:=name_key) ["Q"; "B"; "R"; "A"; "P"; "C"]
    = Ok (Some ["A"; "R"; "B"; "Q"; "C"; "P"]).
Proof. vm_compute; reflexivity. Qed.

(** ** [reshape] and [_prep_ar] *)

Lemma reshape4_group_points {A} (groups : list (A * A * A * A)) :
  reshape4 (groups ≫= λ '(a, b, c, d), [a; b; c; d]) = Ok groups.
Proof.
  induction groups as [|[[[a b] c] d] groups IH]; [done|].
  rewrite bind_cons. cbn [app reshape4]. by rewrite IH.
Qed.

Lemma reshape4_inv {A} (l : list A) groups :
  reshape4 l = Ok groups → l = groups ≫= λ '(a, b, c, d), [a; b; c; d].
Proof.
  revert l. induction groups as [|[[[a b] c] d] groups IH]; intros l Hl.
  - destruct l as [|a [|b [|c [|d l]]]]; simpl in Hl; try done.
    by destruct (reshape4 l).
  - destruct l as [|a' [|b' [|c' [|d' l]]]]; simpl in Hl; try done.
    destruct (reshape4 l) as [groups'|] eqn:Hl'; [|done].
    injection Hl as -> -> -> -> ->. rewrite bind_cons. cbn [app].
    do 4 f_equal. by apply IH.
Qed.

Section EqRatio_facts.
Context {Point : Type} `{T : Table Point} `{Nm : Numeric Point}.

Lemma prep_ar_loop_groups p0 p1 p2 p3 tl groups :
  prep_ar_loop (p0 :: p1 :: p2 :: p3 :: tl) (group_points groups) =
  Ok (ratio_equation (p0, p1, p2, p3) <$> groups).
Proof.
  induction groups as [|[[[e f] g] h] groups IH]; [done|].
  unfold group_points in *. rewrite bind_cons, fmap_cons.
  cbn [app prep_ar_loop]. by rewrite IH.
Qed.

(** [_prep_ar] pairs the first group with each later group, in order. *)
Lemma EqRatio_prep_ar_groups (statement : Statement Point) first groups :
  reshape4 (stmt_args statement) = Ok (first :: groups) →
  EqRatio_prep_ar statement = Ok (ratio_equation first <$> groups).
Proof.
  intros Hargs%reshape4_inv. unfold EqRatio_prep_ar. rewrite Hargs.
  destruct first as [[[p0 p1] p2] p3]. rewrite bind_cons. cbn [app drop].
  apply prep_ar_loop_groups.
Qed.

Lemma EqRatio_prep_ar_8 (statement : Statement Point) a b c d e f g h :
  stmt_args statement = [a; b; c; d; e; f; g; h] →
  EqRatio_prep_ar statement =
  Ok [get_equal_difference_up_to (get_length a b) (get_length c d)
                                 (get_length e f) (get_length g h)].
Proof. intros Hargs. unfold EqRatio_prep_ar. by rewrite Hargs. Qed.

Lemma EqRatio_check_8 (statement : Statement Point) a b c d e f g h σ :
  stmt_args statement = [a; b; c; d; e; f; g; h] →
  EqRatio_check statement σ =
  Ok (expr_delta (get_equal_difference_up_to (get_length a b) (get_length c d)
                                             (get_length e f) (get_length g h)) σ, σ).
Proof.
  intros Hargs. unfold EqRatio_check, bind, lift, gets.
  rewrite (EqRatio_prep_ar_8 _ _ _ _ _ _ _ _ _ Hargs). simpl.
  by rewrite andb_true_r.
Qed.

(** On an [eqratio] statement of eight points [EqRatio.add] asserts one
    equation. *)
Lemma EqRatio_add_8 (dep : Dependency Point) a b c d e f g h σ :
  stmt_args (dep_statement dep) = [a; b; c; d; e; f; g; h] →
  EqRatio_add dep σ =
  match add_expr (get_equal_difference_up_to (get_length a b) (get_length c d)
                                             (get_length e f) (get_length g h)) dep σ with
  | Ok σ' => Ok (tt, σ')
  | Raise e => Raise e
  end.
Proof.
  intros Hargs. unfold EqRatio_add, bind, lift.
  rewrite (EqRatio_prep_ar_8 _ _ _ _ _ _ _ _ _ Hargs). simpl.
  unfold bind, modify, ret. by destruct (add_expr _ dep σ).
Qed.

(** *** [check_numerical] *)

Lemma close_to_previous_nil : close_to_previous (Nm:=Nm) [].
Proof. intros i r r' Hi. done. Qed.

Lemma close_to_previous_singleton r : close_to_previous [r].
Proof. intros [|i] r1 r2 H1 H2; done. Qed.

Lemma close_to_previous_cons r r' ratios :
  close_to_previous (r :: r' :: ratios) ↔
  close_enough r r' = true ∧ close_to_previous (r' :: ratios).
Proof.
  split.
  - intros Hall. split; [by apply (Hall 0%nat)|].
    intros i r1 r2 H1 H2. by apply (Hall (S i)).
  - intros [Hclose Hall] [|i] r1 r2 H1 H2.
    + simpl in *. by simplify_eq.
    + by apply (Hall i).
Qed.

Lemma check_numerical_loop_Some r groups :
  check_numerical_loop (Some r) groups = true ↔
  close_to_previous (r :: group_ratios groups).
Proof.
  revert r. induction groups as [|[[[a b] c] d] groups IH]; intros r.
  - split; [intros _; apply close_to_previous_singleton|done].
  - cbn [check_numerical_loop]. unfold group_ratios.
    rewrite fmap_cons, close_to_previous_cons.
    destruct (close_enough r _); cbn [negb].
    + rewrite IH. unfold group_ratios. tauto.
    + split; [done|]. by intros [? _].
Qed.

Lemma check_numerical_loop_None groups :
  check_numerical_loop None groups = true ↔ close_to_previous (group_ratios groups).
Proof.
  destruct groups as [|[[[a b] c] d] groups].
  - split; [intros _; apply close_to_previous_nil|done].
  - simpl. apply check_numerical_loop_Some.
Qed.

Lemma EqRatio_check_numerical_run (statement : Statement Point) σ :
  EqRatio_check_numerical statement σ =
  match reshape4 (stmt_args statement) with
  | Ok groups => Ok (check_numerical_loop None groups, σ)
  | Raise e => Raise e
  end.
Proof.
  unfold EqRatio_check_numerical, bind, lift, ret.
  by destruct (reshape4 (stmt_args statement)).
Qed.

Lemma EqRatio_check_numerical_frame (statement : Statement Point) σ r σ' :
  EqRatio_check_numerical statement σ = Ok (r, σ') → σ' = σ.
Proof.
  rewrite EqRatio_check_numerical_run.
  destruct (reshape4 (stmt_args statement)); congruence.
Qed.

Lemma EqRatio_check_numerical_8 (statement : Statement Point) a b c d e f g h σ :
  stmt_args statement = [a; b; c; d; e; f; g; h] →
  ∃ r, EqRatio_check_numerical statement σ = Ok (r, σ).
Proof. intros Hargs. rewrite EqRatio_check_numerical_run, Hargs. simpl. eauto. Qed.
End EqRatio_facts.

(** ** The conjunction of three calls *)

Section and3_facts.
Context {Point : Type} `{T : Table Point}.

Lemma and3_readonly (x y z : M bool) σ bx by_ bz :
  x σ = Ok (bx, σ) → y σ = Ok (by_, σ) → z σ = Ok (bz, σ) →
  and3 x y z σ = Ok (bx && by_ && bz, σ).
Proof.
  intros Hx Hy Hz. unfold and3, bind, ret. rewrite Hx.
  destruct bx; [|done]. rewrite Hy. destruct by_; [|done]. by rewrite Hz.
Qed.
End and3_facts.

(** ** The compound predicate against its three primitives *)

Lemma plain_dispatch_plain {Point : Type} `{T : Table Point} `{Nm : Numeric Point} :
  PlainDispatch Point (D:=plain_dispatch).
Proof. split; simpl; [intros s ->|intros s ->|intros dep ->]; reflexivity. Qed.

Section EqRatio3_theorems.
Context {Point : Type} `{D : Dispatch Point} `{Nm : Numeric Point}.
Context {PD : PlainDispatch Point}.

(** C1. For a statement with points [(a,b,c,d,m,n)], [EqRatio3.add] is the
    sequence of [EqRatio.add] on the three statements with arguments
    [(m,a,m,c,n,b,n,d)], [(m,a,a,c,b,n,b,d)], [(m,c,a,c,n,d,b,d)], in that
    order; [EqRatio3.check] returns a boolean without changing the table,
    and returns [True] iff [EqRatio.check] returns [True] on each of the
    three. *)
Theorem EqRatio3_decomposes (dep : Dependency Point) a b c d m n :
  let statement := dep_statement dep in
  let s1 := mkStatement EqRatio [m; a; m; c; n; b; n; d] in
  let s2 := mkStatement EqRatio [m; a; a; c; b; n; b; d] in
  let s3 := mkStatement EqRatio [m; c; a; c; n; d; b; d] in
  stmt_args statement = [a; b; c; d; m; n] →
  EqRatio3_add dep =
    (EqRatio_add (Dependency_with_new dep s1) ;;
     EqRatio_add (Dependency_with_new dep s2) ;;
     EqRatio_add (Dependency_with_new dep s3)) ∧
  ∀ σ, (∃ r, EqRatio3_check statement σ = Ok (r, σ)) ∧
       (EqRatio3_check statement σ = Ok (true, σ) ↔
          EqRatio_check s1 σ = Ok (true, σ) ∧
          EqRatio_check s2 σ = Ok (true, σ) ∧
          EqRatio_check s3 σ = Ok (true, σ)).
Proof.
  intros statement s1 s2 s3 Hargs. split.
  - unfold EqRatio3_add. fold statement. rewrite Hargs.
    unfold eqr1, eqr2, eqr3, Statement_with_new. fold s1 s2 s3.
    by rewrite !add_EqRatio.
  - intros σ. unfold EqRatio3_check. rewrite Hargs.
    unfold eqr1, eqr2, eqr3, Statement_with_new. fold s1 s2 s3.
    rewrite !check_EqRatio by done.
    pose proof (EqRatio_check_8 s1 _ _ _ _ _ _ _ _ σ eq_refl) as H1.
    pose proof (EqRatio_check_8 s2 _ _ _ _ _ _ _ _ σ eq_refl) as H2.
    pose proof (EqRatio_check_8 s3 _ _ _ _ _ _ _ _ σ eq_refl) as H3.
    rewrite (and3_readonly _ _ _ σ _ _ _ H1 H2 H3), H1, H2, H3.
    split; [eauto|].
    split.
    + intros [= Hand]. apply andb_prop in Hand as [Hand ->].
      by apply andb_prop in Hand as [-> ->].
    + by intros ([= ->] & [= ->] & [= ->]).
Qed.

(** C7 (as amended). [EqRatio3.check_numerical] is the conjunction of the
    numerical checks of its three primitive statements;
    [EqRatio.check_numerical] returns [True] iff the ratio of every group
    of four points is close enough to the ratio of the group just before
    it; neither call changes the closure table. *)
Theorem check_numerical_conjunctive_readonly :
  (∀ (statement : Statement Point) a b c d m n σ,
     stmt_args statement = [a; b; c; d; m; n] →
     ∃ b1 b2 b3,
       EqRatio_check_numerical (mkStatement EqRatio [m; a; m; c; n; b; n; d]) σ = Ok (b1, σ) ∧
       EqRatio_check_numerical (mkStatement EqRatio [m; a; a; c; b; n; b; d]) σ = Ok (b2, σ) ∧
       EqRatio_check_numerical (mkStatement EqRatio [m; c; a; c; n; d; b; d]) σ = Ok (b3, σ) ∧
       EqRatio3_check_numerical statement σ = Ok (b1 && b2 && b3, σ)) ∧
  (∀ (statement : Statement Point) groups σ,
     reshape4 (stmt_args statement) = Ok groups →
     ∃ r, EqRatio_check_numerical statement σ = Ok (r, σ) ∧
          (r = true ↔ close_to_previous (group_ratios groups))) ∧
  (∀ (statement : Statement Point) σ r σ',
     EqRatio_check_numerical statement σ = Ok (r, σ') → σ' = σ) ∧
  (∀ (statement : Statement Point) σ r σ',
     EqRatio3_check_numerical statement σ = Ok (r, σ') → σ' = σ).
Proof.
  assert (∀ (statement : Statement Point) a b c d m n σ,
     stmt_args statement = [a; b; c; d; m; n] →
     ∃ b1 b2 b3,
       EqRatio_check_numerical (mkStatement EqRatio [m; a; m; c; n; b; n; d]) σ = Ok (b1, σ) ∧
       EqRatio_check_numerical (mkStatement EqRatio [m; a; a; c; b; n; b; d]) σ = Ok (b2, σ) ∧
       EqRatio_check_numerical (mkStatement EqRatio [m; c; a; c; n; d; b; d]) σ = Ok (b3, σ) ∧
       EqRatio3_check_numerical statement σ = Ok (b1 && b2 && b3, σ)) as Hconj.
  { intros statement a b c d m n σ Hargs.
    destruct (EqRatio_check_numerical_8
                (mkStatement EqRatio [m; a; m; c; n; b; n; d]) _ _ _ _ _ _ _ _ σ eq_refl)
      as [b1 H1].
    destruct (EqRatio_check_numerical_8
                (mkStatement EqRatio [m; a; a; c; b; n; b; d]) _ _ _ _ _ _ _ _ σ eq_refl)
      as [b2 H2].
    destruct (EqRatio_check_numerical_8
                (mkStatement EqRatio [m; c; a; c; n; d; b; d]) _ _ _ _ _ _ _ _ σ eq_refl)
      as [b3 H3].
    exists b1, b2, b3. split; [done|]. split; [done|]. split; [done|].
    unfold EqRatio3_check_numerical. rewrite Hargs.
    unfold eqr1, eqr2, eqr3, Statement_with_new.
    rewrite !check_numerical_EqRatio by done.
    by apply and3_readonly. }
  split; [exact Hconj|]. split; [|split].
  - intros statement groups σ Hgroups.
    rewrite EqRatio_check_numerical_run, Hgroups.
    eexists. split; [done|]. apply check_numerical_loop_None.
  - apply EqRatio_check_numerical_frame.
  - intros statement σ r σ' Hrun.
    destruct (stmt_args statement) as [|a [|b [|c [|d [|m [|n [|]]]]]]] eqn:Hargs;
      try (unfold EqRatio3_check_numerical in Hrun; rewrite Hargs in Hrun; done).
    destruct (Hconj statement a b c d m n σ Hargs) as (b1 & b2 & b3 & _ & _ & _ & Heq).
    congruence.
Qed.
End EqRatio3_theorems.

Section why_theorems.
Context {Point : Type} `{T : Table Point}.

(** C5 (as amended). [EqRatio.why] returns a dependency that carries the
    queried statement, the [Ratio_Chase] tag and, as antecedents, the
    statements of the facts the closure table's [why] returns for each
    equation of [_prep_ar], in order. [EqRatio3.why] returns a dependency
    that carries the queried statement, the [Ratio_Chase] tag and, as
    antecedents, its three primitive [eqratio] statements in their fixed
    order. Neither changes the table. *)
Theorem why_antecedents :
  (∀ (statement : Statement Point) first groups σ,
     reshape4 (stmt_args statement) = Ok (first :: groups) →
     EqRatio_why statement σ =
     Ok (mkDependency statement Ratio_Chase
           (gathered_from_table (ratio_equation first <$> groups) σ), σ)) ∧
  (∀ (statement : Statement Point) a b c d m n σ,
     stmt_args statement = [a; b; c; d; m; n] →
     EqRatio3_why statement σ =
     Ok (mkDependency statement Ratio_Chase
           [mkStatement EqRatio [m; a; m; c; n; b; n; d];
            mkStatement EqRatio [m; a; a; c; b; n; b; d];
            mkStatement EqRatio [m; c; a; c; n; d; b; d]], σ)).
Proof.
  split.
  - intros statement first groups σ Hargs.
    unfold EqRatio_why, bind, lift, gets, ret.
    by rewrite (EqRatio_prep_ar_groups _ _ _ Hargs).
  - intros statement a b c d m n σ Hargs.
    unfold EqRatio3_why. by rewrite Hargs.
Qed.
End why_theorems.

Section EqRatio_theorems.
Context {Point : Type} `{Sy : Symbols Point}.

(** C9. [EqRatio.preparse] and [EqRatio.parse] return exactly what
    [EqAngle.preparse] and [EqAngle.parse] return on the same arguments. *)
Theorem EqRatio_canonical_form_is_EqAngle args dep_graph :
  EqRatio_preparse args = EqAngle_preparse args ∧
  EqRatio_parse args dep_graph = EqAngle_parse args dep_graph.
Proof. split; unfold EqRatio_preparse, EqRatio_parse; reflexivity. Qed.
End EqRatio_theorems.

(** ** Examples on the journal table *)

Lemma EqRatio3_decomposes_witness :
  EqRatio3_add (T:=journal_table) (D:=plain_dispatch (Nm:=line_numeric)) thales_dep =
    (EqRatio_add (Dependency_with_new thales_dep (mkStatement EqRatio [4; 0; 4; 2; 5; 1; 5; 3])) ;;
     EqRatio_add (Dependency_with_new thales_dep (mkStatement EqRatio [4; 0; 0; 2; 1; 5; 1; 3])) ;;
     EqRatio_add (Dependency_with_new thales_dep (mkStatement EqRatio [4; 2; 0; 2; 5; 3; 1; 3]))).
Proof.
  exact (proj1 (EqRatio3_decomposes (PD:=plain_dispatch_plain) thales_dep 0 1 2 3 4 5 eq_refl)).
Defined.

(** Asserting [eqratio3 0 1 2 3 4 5] on the empty journal leaves the three
    primitive equations, in order, each under its own primitive statement. *)
Example EqRatio3_add_journal :
  EqRatio3_add (T:=journal_table) (D:=plain_dispatch (Nm:=line_numeric)) thales_dep (nil : journal) =
  Ok (tt,
      [(((4, 0), (4, 2), (5, 1), (5, 3)),
        mkDependency (mkStatement EqRatio [4; 0; 4; 2; 5; 1; 5; 3]) "premise" []);
       (((4, 0), (0, 2), (1, 5), (1, 3)),
        mkDependency (mkStatement EqRatio [4; 0; 0; 2; 1; 5; 1; 3]) "premise" []);
       (((4, 2), (0, 2), (5, 3), (1, 3)),
        mkDependency (mkStatement EqRatio [4; 2; 0; 2; 5; 3; 1; 3]) "premise" [])]).
Proof. reflexivity. Qed.

Example EqRatio3_check_after_add :
  EqRatio3_check (T:=journal_table) (D:=plain_dispatch (Nm:=line_numeric)) thales (nil : journal) =
    Ok (false, nil : journal) ∧
  ∃ σ, EqRatio3_add (T:=journal_table) (D:=plain_dispatch (Nm:=line_numeric)) thales_dep (nil : journal)
         = Ok (tt, σ) ∧
       EqRatio3_check (T:=journal_table) (D:=plain_dispatch (Nm:=line_numeric)) thales σ
         = Ok (true, σ).
Proof. split; [reflexivity|]. eexists. split; reflexivity. Qed.

(** C5, counterexample: on the empty journal the closure table explains
    nothing, yet [EqRatio3.why] lists three antecedents. *)
Lemma EqRatio3_why_not_gathered :
  ∃ (dep : Dependency Z) (e1 e2 e3 : @SumCV Z journal_table),
    EqRatio3_why (T:=journal_table) thales (nil : journal) = Ok (dep, nil : journal) ∧
    EqRatio_prep_ar (T:=journal_table) (mkStatement EqRatio [4; 0; 4; 2; 5; 1; 5; 3]) = Ok [e1] ∧
    EqRatio_prep_ar (T:=journal_table) (mkStatement EqRatio [4; 0; 0; 2; 1; 5; 1; 3]) = Ok [e2] ∧
    EqRatio_prep_ar (T:=journal_table) (mkStatement EqRatio [4; 2; 0; 2; 5; 3; 1; 3]) = Ok [e3] ∧
    dep_why dep ≠ gathered_from_table (T:=journal_table) [e1; e2; e3] (nil : journal).
Proof. do 4 eexists. repeat split; try reflexivity. discriminate. Qed.

Lemma check_numerical_conjunctive_readonly_witness :
  ∃ r, EqRatio_check_numerical (T:=journal_table) (Nm:=line_numeric) chain (nil : journal) = Ok (r, nil : journal) ∧
       (r = true ↔ close_to_previous (Nm:=line_numeric) (group_ratios chain_groups)).
Proof.
  exact (proj1 (proj2 (check_numerical_conjunctive_readonly
                         (T:=journal_table) (Nm:=line_numeric)
                         (D:=plain_dispatch) (PD:=plain_dispatch_plain)))
           chain chain_groups (nil : journal) eq_refl).
Defined.

(** C7, counterexample: the ratios 1, 2, 3 (tolerance 1) are each close to
    the one before, so [EqRatio.check_numerical] returns [True], but the third
    is not close to the first. *)
Lemma check_numerical_not_anchored_to_first :
  reshape4 (stmt_args chain) = Ok chain_groups ∧
  EqRatio_check_numerical (T:=journal_table) (Nm:=line_numeric) chain (nil : journal) = Ok (true, nil : journal) ∧
  ¬ close_to_first (Nm:=line_numeric) (group_ratios chain_groups).
Proof.
  split; [reflexivity|]. split; [reflexivity|].
  intros Hfirst. specialize (Hfirst 1%nat 1 3 eq_refl eq_refl). discriminate.
Qed.

(** ** [EqRatio.to_constructive] *)

Ltac perm_step :=
  first [ apply Permutation_refl
        | apply perm_skip
        | apply (Permutation_cons_app [_] _ _)
        | apply (Permutation_cons_app [_; _] _ _)
        | apply (Permutation_cons_app [_; _; _] _ _)
        | apply (Permutation_cons_app [_; _; _; _] _ _)
        | apply (Permutation_cons_app [_; _; _; _; _] _ _)
        | apply (Permutation_cons_app [_; _; _; _; _; _] _ _)
        | apply (Permutation_cons_app [_; _; _; _; _; _; _] _ _) ];
  cbn [app].

(** C6. When [point] is one of the eight arguments, [to_constructive] returns
    the string [eqratio] followed by eight names separated by single blanks;
    the first of them is [point], and the eight names are a rearrangement of
    the eight arguments. *)
Theorem EqRatio_to_constructive_point_first point a b c d e f g h :
  point ∈ [a; b; c; d; e; f; g; h] →
  ∃ rest,
    EqRatio_to_constructive point [a; b; c; d; e; f; g; h] =
      Ok (Some (String.concat " " ("eqratio" :: point :: rest))) ∧
    point :: rest ≡ₚ [a; b; c; d; e; f; g; h].
Proof.
  intros Hin. unfold EqRatio_to_constructive.
  do 8 (case_bool_decide;
        [ match goal with Hpoint : point = _ |- _ => rewrite Hpoint end;
          eexists [_; _; _; _; _; _; _];
          split; [reflexivity | repeat perm_step]
        | ]).
  exfalso. set_solver.
Qed.

Lemma EqRatio_to_constructive_point_first_witness :
  ∃ rest,
    EqRatio_to_constructive "C" ["A"; "B"; "C"; "D"; "E"; "F"; "G"; "H"] =
      Ok (Some (String.concat " " ("eqratio" :: "C" :: rest))) ∧
    "C" :: rest ≡ₚ ["A"; "B"; "C"; "D"; "E"; "F"; "G"; "H"].
Proof.
  apply (EqRatio_to_constructive_point_first "C" "A" "B" "C" "D" "E" "F" "G" "H").
  set_solver.
Defined.

Example EqRatio_to_constructive_C :
  EqRatio_to_constructive "C" ["A"; "B"; "C"; "D"; "E"; "F"; "G"; "H"] =
  Ok (Some "eqratio C E F G H A B D").
Proof. reflexivity. Qed.

(** C10. When [point] is none of the eight arguments, [to_constructive]
    falls through every branch and returns [None]. *)
Theorem EqRatio_to_constructive_partial point a b c d e f g h :
  point ∉ [a; b; c; d; e; f; g; h] →
  EqRatio_to_constructive point [a; b; c; d; e; f; g; h] = Ok None.
Proof.
  intros Hnotin. unfold EqRatio_to_constructive.
  repeat case_bool_decide; subst; try done; exfalso; apply Hnotin; set_solver.
Qed.

Lemma EqRatio_to_constructive_partial_witness :
  EqRatio_to_constructive "Z" ["A"; "B"; "C"; "D"; "E"; "F"; "G"; "H"] = Ok None.
Proof.
  apply EqRatio_to_constructive_partial.
  intros Hin. repeat (apply elem_of_cons in Hin as [Hin|Hin]; [discriminate|]).
  by apply elem_of_nil in Hin.
Defined.

(** ** The layered proof graph *)

Lemma prefix_append s t : String.prefix s (s +:+ t) = true.
Proof.
  induction s as [|a s IH]; [by destruct t|].
  change (String a s +:+ t) with (String a (s +:+ t)). simpl.
  by destruct (Ascii.ascii_dec a a).
Qed.

Lemma new_rule_node_rule_like rule_name rule_nodes :
  rule_like (new_rule_node rule_name rule_nodes).
Proof. apply prefix_append. Qed.

Lemma is_label_not_rule_like s : is_label s = true → ¬ rule_like s.
Proof.
  unfold rule_like. destruct s as [|c1 s]; [done|]. cbn [String.prefix].
  destruct (Ascii.ascii_dec (Ascii.Ascii false true false false true true true false) c1)
    as [<-|]; [|done].
  destruct s as [|c2 [|c3 [|]]]; done.
Qed.

Lemma layers_of_Ok node_layer ps :
  (∀ p, p ∈ ps → ∃ k, node_layer !! p = Some k ∧ Z.odd k = true) →
  ∃ ks, layers_of node_layer ps = Ok ks ∧ length ks = length ps ∧
        Forall (λ k, Z.odd k = true) ks.
Proof.
  induction ps as [|p ps IH]; intros Hps; simpl.
  - exists []. by repeat split.
  - destruct (Hps p) as (k & -> & Hk); [set_solver|].
    destruct IH as (ks & -> & Hlen & Hodd); [set_solver|].
    exists (k :: ks). split; [done|]. split; [simpl; lia|]. by constructor.
Qed.

Lemma foldl_max_odd k ks :
  Z.odd k = true → Forall (λ k, Z.odd k = true) ks → Z.odd (foldl Z.max k ks) = true.
Proof.
  revert k. induction ks as [|k' ks IH]; intros k Hk Hks; [done|].
  apply Forall_cons in Hks as [Hk' Hks]. simpl. apply IH; [|done].
  destruct (Z.max_spec k k') as [[_ ->]|[_ ->]]; done.
Qed.

Lemma record_conclusion_layered g concl_part concl_label :
  layered g → ¬ rule_like concl_label →
  layered (record_conclusion g concl_part concl_label).
Proof.
  intros Hg Hlabel. destruct Hg. split; simpl.
  - rewrite dom_insert_L. by f_equal.
  - intros f [->%elem_of_singleton|Hf]%elem_of_union; auto.
  - auto.
  - intros x Hx. destruct (node_layer g !! concl_label) eqn:Hl.
    + destruct (layered_dom0 x Hx); set_solver.
    + destruct (decide (x = concl_label)) as [->|Hne]; [set_solver|].
      rewrite lookup_insert_ne in Hx by done.
      destruct (layered_dom0 x Hx); set_solver.
  - intros f Hf. destruct (node_layer g !! concl_label) as [k|] eqn:Hl.
    + apply elem_of_union in Hf as [->%elem_of_singleton|Hf]; [|by auto].
      destruct (layered_dom0 concl_label) as [Hfact|Hrule]; [by eauto|by auto|].
      by apply layered_rules0 in Hrule.
    + destruct (decide (f = concl_label)) as [->|Hne].
      * exists 1. by rewrite lookup_insert_eq.
      * rewrite lookup_insert_ne by done. set_solver.
  - intros r k Hr. destruct (node_layer g !! concl_label) eqn:Hl; [by eauto|].
    rewrite lookup_insert_ne; [by eauto|]. intros ->. by apply layered_rules0 in Hr.
  - intros u v Huv. destruct (layered_edges0 u v Huv); set_solver.
  - intros r Hr. rewrite <-layered_premises0 by done.
    destruct (node_layer g !! concl_label) eqn:Hl; [done|].
    rewrite lookup_insert_ne; [done|]. intros ->. by apply layered_rules0 in Hr.
Qed.

Lemma record_conclusion_fact g concl_part concl_label :
  concl_label ∈ fact_nodes (record_conclusion g concl_part concl_label).
Proof. simpl. set_solver. Qed.

Lemma register_rule_layered g rule_node :
  layered g → rule_like rule_node →
  layered (mkGraph (stmt_map g) (fact_nodes g) ({[rule_node]} ∪ rule_nodes g)
                   (edges g) (node_layer g) (initial_fact_nodes g)).
Proof.
  intros Hg Hrule. destruct Hg. split; simpl; auto.
  - intros r [->%elem_of_singleton|Hr]%elem_of_union; auto.
  - intros x Hx. destruct (layered_dom0 x Hx); set_solver.
  - intros r k [->%elem_of_singleton|Hr]%elem_of_union Hk; [|by eauto].
    destruct (layered_dom0 rule_node) as [Hfact|Hr]; [by eauto| |by eauto].
    by apply layered_facts0 in Hfact.
  - intros u v Huv. destruct (layered_edges0 u v Huv); set_solver.
  - intros r [->%elem_of_singleton|Hr]%elem_of_union; [|by auto].
    destruct (decide (rule_node ∈ rule_nodes g)) as [Hr|Hnew]; [by auto|].
    split.
    + intros Hsome. destruct (layered_dom0 rule_node Hsome) as [Hfact|Hr]; [|done].
      by apply layered_facts0 in Hfact.
    + intros [p Hp]. destruct (layered_edges0 p rule_node Hp) as [[_ Hr]|[_ Hfact]]; [done|].
      by apply layered_facts0 in Hfact.
Qed.

Lemma derive_layered g rule_node concl_label valid_premises rule_layer :
  layered g → rule_like rule_node →
  concl_label ∈ fact_nodes g →
  valid_premises ≠ [] →
  (∀ p, p ∈ valid_premises → p ∈ fact_nodes g) →
  Z.even rule_layer = true →
  layered (mkGraph (stmt_map g) (fact_nodes g) ({[rule_node]} ∪ rule_nodes g)
             (edges g ++ ((λ p, (p, rule_node)) <$> valid_premises)
                      ++ [(rule_node, concl_label)])
             (<[concl_label := rule_layer + 1]> (<[rule_node := rule_layer]> (node_layer g)))
             (initial_fact_nodes g)).
Proof.
  intros Hg Hrule Hconcl Hne Hvalid Heven. destruct Hg.
  assert (concl_label ≠ rule_node) as Hcr.
  { intros ->. by apply layered_facts0 in Hconcl. }
  assert (∀ r, r ∈ ({[rule_node]} ∪ rule_nodes g : gset string) → r ≠ concl_label) as Hrc.
  { intros r [->%elem_of_singleton|Hr]%elem_of_union; [done|].
    intros ->. apply layered_rules0 in Hr. by apply layered_facts0 in Hconcl. }
  split; simpl; auto.
  - intros r [->%elem_of_singleton|Hr]%elem_of_union; auto.
  - intros x Hx. destruct (decide (x = concl_label)) as [->|Hxc]; [by left|].
    rewrite lookup_insert_ne in Hx by done.
    destruct (decide (x = rule_node)) as [->|Hxr]; [right; set_solver|].
    rewrite lookup_insert_ne in Hx by done.
    destruct (layered_dom0 x Hx); set_solver.
  - intros f Hf. destruct (decide (f = concl_label)) as [->|Hfc].
    + exists (rule_layer + 1). rewrite lookup_insert_eq. split; [done|].
      by rewrite Z.add_1_r, Z.odd_succ.
    + rewrite lookup_insert_ne by done. rewrite lookup_insert_ne; [by auto|].
      intros <-. by apply layered_facts0 in Hf.
  - intros r k Hr Hk. rewrite lookup_insert_ne in Hk by (symmetry; by apply Hrc).
    destruct (decide (r = rule_node)) as [->|Hne'].
    + rewrite lookup_insert_eq in Hk. by simplify_eq.
    + rewrite lookup_insert_ne in Hk by done.
      apply (layered_even0 r k); [set_solver|done].
  - intros u v [Huv|[Huv|Huv]%elem_of_app]%elem_of_app.
    + destruct (layered_edges0 u v Huv); set_solver.
    + apply list_elem_of_fmap in Huv as (p & [= -> ->] & Hp). left. set_solver.
    + apply list_elem_of_singleton in Huv as [= -> ->]. right. set_solver.
  - intros r Hr. rewrite lookup_insert_ne by (symmetry; by apply Hrc).
    destruct (decide (r = rule_node)) as [->|Hne'].
    + rewrite lookup_insert_eq. split; [|by eauto]. intros _.
      destruct valid_premises as [|p ps]; [done|].
      exists p. set_solver.
    + rewrite lookup_insert_ne by done. rewrite layered_premises0 by set_solver.
      split; intros [p Hp]; exists p; [set_solver|].
      apply elem_of_app in Hp as [Hp|[Hp|Hp]%elem_of_app]; [done| |].
      * apply list_elem_of_fmap in Hp as (p' & [= _ Heq] & _). done.
      * apply list_elem_of_singleton in Hp as [= _ Heq]. by destruct (Hrc r Hr).
Qed.

Lemma parse_line_layered g line :
  layered g → (∀ l, l ∈ line_labels line → ¬ rule_like l) →
  ∃ g', parse_line g line = Ok g' ∧ layered g'.
Proof.
  intros Hg Hlabels.
  destruct line as [|concl_part concl_label|concl_part concl_label rule_name premise_labels].
  - simpl. eauto.
  - simpl. eexists. split; [done|]. apply record_conclusion_layered; [done|].
    apply Hlabels. simpl. set_solver.
  - unfold parse_line.
    set (g1 := record_conclusion g concl_part concl_label).
    assert (layered g1) as Hg1.
    { apply record_conclusion_layered; [done|]. apply Hlabels. simpl. set_solver. }
    set (rule_node := new_rule_node rule_name (rule_nodes g1)).
    pose proof (new_rule_node_rule_like rule_name (rule_nodes g1)) as Hrule.
    fold rule_node in Hrule.
    set (valid_premises := filter (λ p, is_Some (stmt_map g1 !! p)) premise_labels).
    assert (∀ p, p ∈ valid_premises → p ∈ fact_nodes g1) as Hvalid.
    { intros p [Hp _]%list_elem_of_filter.
      rewrite <-(layered_stmts g1 Hg1). by apply elem_of_dom. }
    destruct valid_premises as [|p ps] eqn:Hvp.
    + eexists. split; [done|]. by apply register_rule_layered.
    + destruct (layers_of_Ok (node_layer g1) (p :: ps)) as (ks & -> & Hlen & Hodd).
      { intros q Hq. apply (layered_odd g1 Hg1). by apply Hvalid. }
      destruct ks as [|k ks]; [done|]. cbn [py_max].
      apply Forall_cons in Hodd as [Hk Hks].
      eexists. split; [done|].
      apply derive_layered; try done.
      * apply record_conclusion_fact.
      * by rewrite Z.add_1_r, Z.even_succ, foldl_max_odd.
Qed.

Lemma parse_lines_layered g proof_lines :
  layered g →
  (∀ line l, line ∈ proof_lines → l ∈ line_labels line → ¬ rule_like l) →
  ∃ g', parse_lines g proof_lines = Ok g' ∧ layered g'.
Proof.
  revert g. induction proof_lines as [|line proof_lines IH]; intros g Hg Hlabels; simpl.
  - eauto.
  - destruct (parse_line_layered g line Hg) as (g' & -> & Hg').
    { intros l. apply Hlabels. set_solver. }
    apply IH; [done|]. intros line' l Hline. apply Hlabels. set_solver.
Qed.

Lemma initial_layered (initial_stmt_map : gmap string string) :
  (∀ l, l ∈ dom initial_stmt_map → ¬ rule_like l) →
  layered (mkGraph initial_stmt_map (dom initial_stmt_map) ∅ []
                   (gset_to_gmap 1 (dom initial_stmt_map)) (dom initial_stmt_map)).
Proof.
  intros Hlabels. split; simpl; try done.
  - intros x [k Hk]. apply lookup_gset_to_gmap_Some in Hk as [Hx _]. by left.
  - intros f Hf. exists 1. split; [|done]. by apply lookup_gset_to_gmap_Some.
  - intros u v Huv. by apply elem_of_nil in Huv.
Qed.

(** *** [adjust_node_layers] *)

Lemma foldl_insert_lookup (t : Z) (ps : list string) (nl : gmap string Z) x :
  foldl (λ nl p, <[p := t]> nl) nl ps !! x =
  if decide (x ∈ ps) then Some t else nl !! x.
Proof.
  revert nl. induction ps as [|p ps IH]; intros nl.
  - simpl. destruct (decide (x ∈ [])) as [Hin|]; [|done]. by apply elem_of_nil in Hin.
  - cbn [foldl]. rewrite IH.
    destruct (decide (x ∈ ps)) as [Hin|Hnotin], (decide (x ∈ p :: ps)) as [Hin'|Hnotin'];
      try done.
    + set_solver.
    + apply elem_of_cons in Hin' as [->|Hin']; [|done]. by rewrite lookup_insert_eq.
    + rewrite lookup_insert_ne; [done|]. set_solver.
Qed.

Lemma premises_are_facts g r p :
  layered g → r ∈ rule_nodes g →
  p ∈ (fst <$> filter (λ e, e.2 = r) (edges g)) → p ∈ fact_nodes g.
Proof.
  intros Hg Hr ([u v] & -> & [Hv Huv]%list_elem_of_filter)%list_elem_of_fmap.
  simpl in *. subst v.
  destruct (layered_edges g Hg u r Huv) as [[Hu _]|[_ Hfact]]; [done|].
  apply (layered_rules g Hg) in Hr. by apply (layered_facts g Hg) in Hfact.
Qed.

Lemma adjust_rule_adjusted g nl r :
  layered g → r ∈ rule_nodes g → adjusted g nl → adjusted g (adjust_rule (edges g) nl r).
Proof.
  intros Hg Hr [Hodd Hrules]. unfold adjust_rule.
  pose proof (premises_are_facts g r) as Hprem.
  destruct (fst <$> filter (λ e, e.2 = r) (edges g)) as [|p ps] eqn:Hps; [done|].
  case_bool_decide as Heven; [|done].
  split.
  - intros f Hf. rewrite foldl_insert_lookup.
    destruct (decide (f ∈ p :: ps)); [|by auto].
    eexists. split; [done|].
    rewrite Z.sub_1_r, Z.odd_pred. rewrite Zmod_even in Heven.
    by destruct (Z.even _).
  - intros r' Hr'. rewrite foldl_insert_lookup.
    destruct (decide (r' ∈ p :: ps)) as [Hin|]; [|by auto].
    apply Hprem in Hin; [|done..].
    apply (layered_rules g Hg) in Hr'. by apply (layered_facts g Hg) in Hin.
Qed.

Lemma adjust_node_layers_in_adjusted g order nl :
  layered g → (∀ r, r ∈ order → r ∈ rule_nodes g) → adjusted g nl →
  adjusted g (adjust_node_layers_in order (edges g) nl).
Proof.
  intros Hg. unfold adjust_node_layers_in.
  revert nl. induction order as [|r order IH]; intros nl Horder Hnl; [done|].
  simpl. apply IH; [set_solver|].
  apply adjust_rule_adjusted; [done|set_solver|done].
Qed.

(** C8 (as amended). On every input whose labels are three-digit labels,
    [parse_proof_relations] returns a graph and, after [adjust_node_layers]
    has walked the rule nodes in whatever order, every fact node (initial or
    derived) has an odd layer; every rule node that has a layer has an even
    one, and a rule node has a layer exactly when it has a premise edge;
    every edge goes from a fact node to a rule node or from a rule node to a
    fact node. *)
Theorem proof_graph_layering initial_stmt_map proof_lines :
  (∀ l, l ∈ dom initial_stmt_map → is_label l = true) →
  (∀ line l, line ∈ proof_lines → l ∈ line_labels line → is_label l = true) →
  ∃ g, parse_proof_relations proof_lines initial_stmt_map = Ok g ∧
    ∀ order, order ≡ₚ elements (rule_nodes g) →
      let layer := adjust_node_layers_in order (edges g) (node_layer g) in
      (∀ f, f ∈ fact_nodes g → ∃ k, layer !! f = Some k ∧ Z.odd k = true) ∧
      (∀ r k, r ∈ rule_nodes g → layer !! r = Some k → Z.even k = true) ∧
      (∀ r, r ∈ rule_nodes g → is_Some (layer !! r) ↔ ∃ p, (p, r) ∈ edges g) ∧
      (∀ u v, (u, v) ∈ edges g →
         (u ∈ fact_nodes g ∧ v ∈ rule_nodes g) ∨ (u ∈ rule_nodes g ∧ v ∈ fact_nodes g)).
Proof.
  intros Hinitial Hlines.
  destruct (parse_lines_layered
              (mkGraph initial_stmt_map (dom initial_stmt_map) ∅ []
                       (gset_to_gmap 1 (dom initial_stmt_map)) (dom initial_stmt_map))
              proof_lines) as (g & Hparse & Hg).
  { apply initial_layered. intros l Hl. by apply is_label_not_rule_like, Hinitial. }
  { intros line l Hline Hl. by apply is_label_not_rule_like, (Hlines line). }
  exists g. split; [done|]. intros order Horder layer.
  destruct (adjust_node_layers_in_adjusted g order (node_layer g) Hg) as [Hodd Hrules].
  { intros r Hr. rewrite Horder in Hr. by apply elem_of_elements in Hr. }
  { split; [apply (layered_odd g Hg)|done]. }
  fold layer in Hodd, Hrules.
  split; [done|]. split; [|split].
  - intros r k Hr. rewrite Hrules by done. by apply (layered_even g Hg).
  - intros r Hr. rewrite Hrules by done. by apply (layered_premises g Hg).
  - apply (layered_edges g Hg).
Qed.

Lemma proof_graph_layering_witness :
  ∃ g, parse_proof_relations [sound_line] problem_facts = Ok g ∧
    ∀ order, order ≡ₚ elements (rule_nodes g) →
      let layer := adjust_node_layers_in order (edges g) (node_layer g) in
      (∀ f, f ∈ fact_nodes g → ∃ k, layer !! f = Some k ∧ Z.odd k = true) ∧
      (∀ r k, r ∈ rule_nodes g → layer !! r = Some k → Z.even k = true) ∧
      (∀ r, r ∈ rule_nodes g → is_Some (layer !! r) ↔ ∃ p, (p, r) ∈ edges g) ∧
      (∀ u v, (u, v) ∈ edges g →
         (u ∈ fact_nodes g ∧ v ∈ rule_nodes g) ∨ (u ∈ rule_nodes g ∧ v ∈ fact_nodes g)).
Proof.
  apply proof_graph_layering.
  - intros l Hl. unfold problem_facts in Hl. rewrite dom_singleton_L in Hl.
    by apply elem_of_singleton in Hl as ->.
  - intros line l Hline%list_elem_of_singleton Hl. subst line. simpl in Hl.
    repeat (apply elem_of_cons in Hl as [->|Hl]; [reflexivity|]).
    by apply elem_of_nil in Hl.
Defined.

Example sound_line_layers :
  ∃ g, parse_proof_relations [sound_line] problem_facts = Ok g ∧
       adjust_node_layers (rule_nodes g) (edges g) (node_layer g)
       = {[ "001" := 1; "r_r00_1" := 2; "002" := 3 ]}.
Proof. eexists. split; [reflexivity|]. by vm_compute. Qed.

(** C8, counterexample: the rule node of a line without a valid premise is a
    rule node of the graph, and has no layer at all. *)
Lemma dangling_rule_node_has_no_layer :
  ∃ g, parse_proof_relations [dangling_line] problem_facts = Ok g ∧
       "r_r00_1" ∈ rule_nodes g ∧
       adjust_node_layers (rule_nodes g) (edges g) (node_layer g) !! "r_r00_1" = None.
Proof.
  eexists. split; [reflexivity|]. split; [|by vm_compute].
  apply elem_of_union_l, elem_of_singleton. by vm_compute.
Qed.

(** * Part II, continued: further properties of the code *)

(** ** More on [EqRatio3.preparse] *)

Section preparse_extras.
Context `{PK : PointKey}.

Lemma sum_pairs_perm groups groups' :
  groups ≡ₚ groups' → sum_pairs groups ≡ₚ sum_pairs groups'.
Proof. intros Hp. unfold sum_pairs. by rewrite Hp. Qed.

Lemma sum_pairs_swap groups : sum_pairs (swap_pair <$> groups) ≡ₚ sum_pairs groups.
Proof.
  unfold sum_pairs. induction groups as [|[p q] groups IH]; [done|].
  rewrite fmap_cons, !bind_cons, IH. simpl. apply perm_swap.
Qed.

Lemma sum_pairs_inj3 (g g' : list (string * string)) :
  length g = 3%nat → length g' = 3%nat → sum_pairs g = sum_pairs g' → g = g'.
Proof.
  destruct g as [|[p1 q1] [|[p2 q2] [|[p3 q3] [|]]]]; try done.
  destruct g' as [|[p1' q1'] [|[p2' q2'] [|[p3' q3'] [|]]]]; try done.
  intros _ _ [= -> -> -> -> -> ->]. done.
Qed.

(** X1. [EqRatio3.preparse] raises [ValueError] exactly when it is not given
    six names; on six names it returns, and an accepted input comes back as
    six names again. *)
Theorem EqRatio3_preparse_arity args :
  (EqRatio3_preparse args = Raise ValueError ↔ length args ≠ 6%nat) ∧
  (∀ out, EqRatio3_preparse args = Ok (Some out) → length out = 6%nat).
Proof.
  destruct args as [|a [|b [|c [|d [|m [|n [|x args]]]]]]];
    try (split; [split; [intros _; simpl; lia|done]|done]).
  rewrite EqRatio3_preparse_unfold. split.
  - split; [|done]. by destruct (degenerate a c m b d n).
  - intros out. destruct (degenerate a c m b d n); [done|]. intros [= <-].
    pose proof (canon_perm_cases [(a, b); (c, d); (m, n)]) as [Hp|Hp];
      apply sum_pairs_perm in Hp; apply Permutation_length in Hp; rewrite Hp.
    + done.
    + pose proof (sum_pairs_swap [(a, b); (c, d); (m, n)]) as Hs.
      apply Permutation_length in Hs. by rewrite Hs.
Qed.

(** X2. The canonical form uses exactly the names it was given: what
    [EqRatio3.preparse] returns is a rearrangement of its arguments. *)
Theorem EqRatio3_preparse_rearranges args out :
  EqRatio3_preparse args = Ok (Some out) → out ≡ₚ args.
Proof.
  destruct args as [|a [|b [|c [|d [|m [|n [|x args]]]]]]]; try done.
  rewrite EqRatio3_preparse_unfold.
  destruct (degenerate a c m b d n); [done|]. intros [= <-].
  change [a; b; c; d; m; n] with (sum_pairs [(a, b); (c, d); (m, n)]).
  destruct (canon_perm_cases [(a, b); (c, d); (m, n)]) as [Hp|Hp].
  - by apply sum_pairs_perm.
  - rewrite <-(sum_pairs_swap [(a, b); (c, d); (m, n)]). by apply sum_pairs_perm.
Qed.

(** X4. Canonicalisation never merges two different facts: two accepted
    inputs with the same canonical form have the same three pairs, up to
    their order and up to reversing all three at once. *)
Theorem EqRatio3_preparse_separates a b c d m n a' b' c' d' m' n' out :
  EqRatio3_preparse [a; b; c; d; m; n] = Ok (Some out) →
  EqRatio3_preparse [a'; b'; c'; d'; m'; n'] = Ok (Some out) →
  [(a', b'); (c', d'); (m', n')] ≡ₚ [(a, b); (c, d); (m, n)] ∨
  [(a', b'); (c', d'); (m', n')] ≡ₚ [(b, a); (d, c); (n, m)].
Proof.
  rewrite !EqRatio3_preparse_unfold.
  destruct (degenerate a c m b d n); [done|].
  destruct (degenerate a' c' m' b' d' n'); [done|].
  intros [= <-] [= Heq].
  set (G := [(a, b); (c, d); (m, n)]) in *.
  set (G' := [(a', b'); (c', d'); (m', n')]) in *.
  change [(b, a); (d, c); (n, m)] with (swap_pair <$> G).
  apply sum_pairs_inj3 in Heq.
  2,3: by rewrite canon_length.
  destruct (canon_perm_cases G) as [HG|HG], (canon_perm_cases G') as [HG'|HG'].
  - left. by rewrite <-HG', Heq.
  - right. rewrite <-(swap_pair_involutive G'), <-HG', Heq, HG. done.
  - right. by rewrite <-HG', Heq.
  - left. rewrite <-(swap_pair_involutive G'), <-HG', Heq, HG.
    by rewrite swap_pair_involutive.
Qed.
End preparse_extras.

Lemma EqRatio3_preparse_rearranges_witness :
  ["A"; "R"; "B"; "Q"; "C"; "P"] ≡ₚ ["Q"; "B"; "R"; "A"; "P"; "C"].
Proof.
  apply (EqRatio3_preparse_rearranges (PK:=name_key)). vm_compute; reflexivity.
Defined.

Lemma EqRatio3_preparse_separates_witness :
  [("Q", "B"); ("R", "A"); ("P", "C")] ≡ₚ [("A", "R"); ("B", "Q"); ("C", "P")] ∨
  [("Q", "B"); ("R", "A"); ("P", "C")] ≡ₚ [("R", "A"); ("Q", "B"); ("P", "C")].
Proof.
  apply (EqRatio3_preparse_separates (PK:=name_key)
           "A" "R" "B" "Q" "C" "P" "Q" "B" "R" "A" "P" "C"
           ["A"; "R"; "B"; "Q"; "C"; "P"]); vm_compute; reflexivity.
Defined.


Section preparse_order.
Context `{PK : PointKey}.

Lemma pair_key_le_fst x y :
  cmp_le (list_compare key_cmp) (pair_key x) (pair_key y) →
  cmp_le key_cmp (custom_key x.1) (custom_key y.1).
Proof.
  unfold cmp_le, pair_key. simpl.
  destruct (key_cmp (custom_key x.1) (custom_key y.1)); done.
Qed.

Lemma groups_key_le_head x xs y ys :
  cmp_le (list_compare (list_compare key_cmp)) (groups_key (x :: xs)) (groups_key (y :: ys)) →
  cmp_le (list_compare key_cmp) (pair_key x) (pair_key y).
Proof.
  unfold cmp_le. rewrite !groups_key_fmap, !fmap_cons.
  change (list_compare (list_compare key_cmp) (pair_key x :: (pair_key <$> xs))
                       (pair_key y :: (pair_key <$> ys)))
    with (match list_compare key_cmp (pair_key x) (pair_key y) with
          | Eq => list_compare (list_compare key_cmp) (pair_key <$> xs) (pair_key <$> ys)
          | Lt => Lt
          | Gt => Gt
          end).
  destruct (list_compare key_cmp (pair_key x) (pair_key y)); done.
Qed.

Lemma sorted_head_least (x : string * string) xs :
  Sorted (λ u v, cmp_le (list_compare key_cmp) (pair_key u) (pair_key v)) (x :: xs) →
  ∀ y, y ∈ x :: xs → cmp_le key_cmp (custom_key x.1) (custom_key y.1).
Proof.
  intros Hs y Hy.
  assert (Transitive (λ u v : string * string,
            cmp_le (list_compare key_cmp) (pair_key u) (pair_key v))) as Htr.
  { intros u v w. apply (cmp_le_trans (list_compare key_cmp)). }
  apply Sorted_StronglySorted in Hs; [|done].
  apply StronglySorted_inv in Hs as [_ Hall].
  apply elem_of_cons in Hy as [->|Hy].
  - unfold cmp_le. by rewrite (cmp_refl key_cmp).
  - apply pair_key_le_fst. rewrite Forall_forall in Hall. by apply Hall.
Qed.

(** The reading [EqRatio3.preparse] keeps starts with a least name. *)
Lemma canon_least_first groups x xs :
  canon groups = x :: xs →
  ∀ y, y ∈ x :: xs →
    cmp_le key_cmp (custom_key x.1) (custom_key y.1) ∧
    cmp_le key_cmp (custom_key x.1) (custom_key y.2).
Proof.
  intros Hcanon.
  pose (lc := list_compare key_cmp).
  assert (∃ O, Sorted (λ u v, cmp_le lc (pair_key u) (pair_key v)) (x :: xs) ∧
               Sorted (λ u v, cmp_le lc (pair_key u) (pair_key v)) O ∧
               O ≡ₚ swap_pair <$> (x :: xs) ∧
               cmp_le (list_compare lc) (groups_key (x :: xs)) (groups_key O))
    as (O & Hsx & HsO & Hperm & Hle).
  { destruct (canon_cases groups) as [[HS Hle]|[HS Hlt]].
    - exists (sorted lc pair_key (swap_pair <$> groups)).
      rewrite <-Hcanon, HS. repeat split.
      + apply (@sorted_Sorted _ _ lc (list_compare_total key_cmp) pair_key).
      + apply (@sorted_Sorted _ _ lc (list_compare_total key_cmp) pair_key).
      + by rewrite !sorted_perm.
      + done.
    - exists (sorted lc pair_key groups). rewrite <-Hcanon, HS. repeat split.
      + apply (@sorted_Sorted _ _ lc (list_compare_total key_cmp) pair_key).
      + apply (@sorted_Sorted _ _ lc (list_compare_total key_cmp) pair_key).
      + by rewrite !sorted_perm, swap_pair_involutive.
      + unfold cmp_le, lc. by rewrite Hlt. }
  intros y Hy. split; [by apply (sorted_head_least x xs)|].
  destruct O as [|o O].
  { apply Permutation_nil_cons in Hperm. done. }
  apply (cmp_le_trans key_cmp _ (custom_key o.1)).
  - by apply pair_key_le_fst, (groups_key_le_head _ xs _ O).
  - assert (swap_pair y ∈ o :: O) as Hin.
    { rewrite Hperm. by apply list_elem_of_fmap_2. }
    apply (sorted_head_least o O HsO) in Hin. by destruct y.
Qed.

(** X3. The canonical form lists its three pairs in the order of the keys of
    their first names, and it starts with a least name: no name of the
    result has a smaller key than the first. *)
Theorem EqRatio3_preparse_ordered a b c d m n out :
  EqRatio3_preparse [a; b; c; d; m; n] = Ok (Some out) →
  ∃ p1 q1 p2 q2 p3 q3,
    out = [p1; q1; p2; q2; p3; q3] ∧
    cmp_le key_cmp (custom_key p1) (custom_key p2) ∧
    cmp_le key_cmp (custom_key p2) (custom_key p3) ∧
    ∀ x, x ∈ out → cmp_le key_cmp (custom_key p1) (custom_key x).
Proof.
  rewrite EqRatio3_preparse_unfold.
  destruct (degenerate a c m b d n); [done|]. intros [= <-].
  set (groups := [(a, b); (c, d); (m, n)]).
  pose proof (canon_length groups) as Hlen.
  pose proof (canon_least_first groups) as Hleast.
  assert (Sorted (λ u v, cmp_le (list_compare key_cmp) (pair_key u) (pair_key v))
            (canon groups)) as Hsorted.
  { destruct (canon_cases groups) as [[-> _]|[-> _]];
      apply (@sorted_Sorted _ _ _ (list_compare_total key_cmp) pair_key). }
  destruct (canon groups) as [|[p1 q1] [|[p2 q2] [|[p3 q3] [|]]]]; try done.
  exists p1, q1, p2, q2, p3, q3. split; [done|].
  apply Sorted_inv in Hsorted as [Hsorted H12]. apply HdRel_inv in H12.
  apply Sorted_inv in Hsorted as [_ H23]. apply HdRel_inv in H23.
  split; [by apply pair_key_le_fst in H12|]. split; [by apply pair_key_le_fst in H23|].
  intros x Hx. specialize (Hleast _ _ eq_refl).
  change (sum_pairs [(p1, q1); (p2, q2); (p3, q3)]) with [p1; q1; p2; q2; p3; q3] in Hx.
  repeat (apply elem_of_cons in Hx as [->|Hx]);
    [ apply (Hleast (p1, q1)) | apply (Hleast (p1, q1))
    | apply (Hleast (p2, q2)) | apply (Hleast (p2, q2))
    | apply (Hleast (p3, q3)) | apply (Hleast (p3, q3)) | by apply elem_of_nil in Hx ];
    set_solver.
Qed.
End preparse_order.

Lemma EqRatio3_preparse_ordered_witness :
  ∃ p1 q1 p2 q2 p3 q3,
    ["A"; "R"; "B"; "Q"; "C"; "P"] = [p1; q1; p2; q2; p3; q3] ∧
    cmp_le (key_cmp (PointKey:=name_key)) (name_codes p1) (name_codes p2) ∧
    cmp_le (key_cmp (PointKey:=name_key)) (name_codes p2) (name_codes p3) ∧
    ∀ x, x ∈ ["A"; "R"; "B"; "Q"; "C"; "P"] →
         cmp_le (key_cmp (PointKey:=name_key)) (name_codes p1) (name_codes x).
Proof.
  apply (EqRatio3_preparse_ordered (PK:=name_key) "Q" "B" "R" "A" "P" "C").
  vm_compute; reflexivity.
Defined.


(** ** More on [class EqRatio] *)

Section EqRatio_extras.
Context {Point : Type} `{T : Table Point} `{Nm : Numeric Point}.

Lemma prep_ar_loop_whole p0 p1 p2 p3 tl j rest :
  length rest = (4 * j)%nat →
  ∃ eqs, prep_ar_loop (p0 :: p1 :: p2 :: p3 :: tl) rest = Ok eqs ∧ length eqs = j.
Proof.
  revert rest. induction j as [|j IH]; intros rest Hlen.
  - destruct rest; [by exists []|done].
  - destruct rest as [|e [|f [|g [|h rest]]]]; try (simpl in Hlen; lia).
    destruct (IH rest) as (eqs & Heqs & Hj); [simpl in Hlen; lia|].
    cbn [prep_ar_loop]. rewrite Heqs. eexists. split; [done|]. simpl. by rewrite Hj.
Qed.

Lemma prep_ar_loop_ragged p0 p1 p2 p3 tl q r rest :
  (0 < r < 4)%nat → length rest = (4 * q + r)%nat →
  prep_ar_loop (p0 :: p1 :: p2 :: p3 :: tl) rest = Raise IndexError.
Proof.
  intros Hr. revert rest. induction q as [|q IH]; intros rest Hlen.
  - destruct rest as [|e [|f [|g [|h rest]]]]; try done; simpl in Hlen; lia.
  - destruct rest as [|e [|f [|g [|h rest]]]]; try (simpl in Hlen; lia).
    cbn [prep_ar_loop]. rewrite IH; [done|]. simpl in Hlen. lia.
Qed.

(** X5. [_prep_ar] on [n] points: no equation when [n <= 4]; [j] equations
    when [n = 4 (j + 1)], one for each group after the first; [IndexError]
    when [n > 4] is not a multiple of four. *)
Theorem EqRatio_prep_ar_outcome (statement : Statement Point) :
  let n := length (stmt_args statement) in
  ((n ≤ 4)%nat → EqRatio_prep_ar statement = Ok []) ∧
  (∀ j, n = (4 * (j + 1))%nat →
     ∃ eqs, EqRatio_prep_ar statement = Ok eqs ∧ length eqs = j) ∧
  (∀ q r, (1 ≤ q)%nat → (0 < r < 4)%nat → n = (4 * q + r)%nat →
     EqRatio_prep_ar statement = Raise IndexError).
Proof.
  unfold EqRatio_prep_ar.
  destruct (stmt_args statement) as [|p0 [|p1 [|p2 [|p3 rest]]]];
    try (simpl; split; [done|split; intros; lia]).
  assert (length (p0 :: p1 :: p2 :: p3 :: rest) = 4 + length rest)%nat as -> by done.
  change (drop 4 (p0 :: p1 :: p2 :: p3 :: rest)) with rest. split; [|split].
  - intros Hn. destruct rest; [done|simpl in Hn; lia].
  - intros j Hn. apply prep_ar_loop_whole. lia.
  - intros q r Hq Hr Hn. apply (prep_ar_loop_ragged _ _ _ _ _ (q - 1) r); lia.
Qed.

(** X6. An [eqratio] statement with at most four points has nothing to
    compare: [check] answers [True] whatever the table holds, [add] leaves
    the table as it is, and [why] returns a dependency without antecedents. *)
Theorem EqRatio_single_group_vacuous (dep : Dependency Point) σ :
  (length (stmt_args (dep_statement dep)) ≤ 4)%nat →
  EqRatio_check (dep_statement dep) σ = Ok (true, σ) ∧
  EqRatio_add dep σ = Ok (tt, σ) ∧
  EqRatio_why (dep_statement dep) σ =
    Ok (mkDependency (dep_statement dep) Ratio_Chase [], σ).
Proof.
  intros Hn.
  assert (EqRatio_prep_ar (dep_statement dep) = Ok []) as Hprep.
  { unfold EqRatio_prep_ar.
    destruct (stmt_args (dep_statement dep)) as [|p0 [|p1 [|p2 [|p3 [|p4 rest]]]]];
      try done. simpl in Hn. lia. }
  unfold EqRatio_check, EqRatio_add, EqRatio_why, bind, lift, gets, ret.
  by rewrite Hprep.
Qed.

Lemma close_to_first_cons r0 r ratios :
  close_to_first (r0 :: r :: ratios) ↔
  close_enough r0 r = true ∧ close_to_first (r0 :: ratios).
Proof.
  split.
  - intros Hall. split; [by apply (Hall 0%nat r0)|].
    intros i r0' r' [= <-] Hi. by apply (Hall (S i) r0).
  - intros [Hclose Hall] [|i] r0' r' [= <-] Hi.
    + simpl in Hi. by simplify_eq.
    + by apply (Hall i r0).
Qed.

Lemma close_to_first_previous r0 ratios :
  (∀ x y, close_enough x y = true → close_enough y x = true) →
  (∀ x y z, close_enough x y = true → close_enough y z = true → close_enough x z = true) →
  close_to_previous (r0 :: ratios) ↔ close_to_first (r0 :: ratios).
Proof.
  intros Hsym Htrans. revert r0. induction ratios as [|r ratios IH]; intros r0.
  - split; intros _.
    + by intros i r0' r' _ Hi.
    + apply close_to_previous_singleton.
  - rewrite close_to_previous_cons, close_to_first_cons, IH.
    split; intros [Hclose Hall]; (split; [done|]).
    + destruct ratios as [|r' ratios]; [by intros i r0' x _ Hi|].
      apply close_to_first_cons in Hall as [Hrr' Hall].
      apply close_to_first_cons. split; [by eauto|].
      clear Hrr'. intros i r0' x [= <-] Hi. apply (Htrans _ r); [done|].
      by apply (Hall i r).
    + intros i r0' x [= <-] Hi. apply (Htrans _ r0); [by auto|].
      by apply (Hall i r0).
Qed.

(** X7. When [close_enough] is symmetric and transitive (an exact
    comparison, say), [EqRatio.check_numerical] returns [True] iff the ratio
    of every later group is close to the ratio of the first group. *)
Theorem EqRatio_check_numerical_equivalence (statement : Statement Point) groups σ :
  (∀ x y, close_enough x y = true → close_enough y x = true) →
  (∀ x y z, close_enough x y = true → close_enough y z = true → close_enough x z = true) →
  reshape4 (stmt_args statement) = Ok groups →
  EqRatio_check_numerical statement σ = Ok (true, σ) ↔ close_to_first (group_ratios groups).
Proof.
  intros Hsym Htrans Hgroups. rewrite EqRatio_check_numerical_run, Hgroups.
  transitivity (check_numerical_loop None groups = true).
  { split; [by intros [= ->]|by intros ->]. }
  rewrite check_numerical_loop_None.
  destruct (group_ratios groups) as [|r0 ratios] eqn:Hr.
  - split; intros _; [by intros i r0 r Hi|apply close_to_previous_nil].
  - by apply close_to_first_previous.
Qed.
End EqRatio_extras.

Lemma EqRatio_single_group_vacuous_witness :
  EqRatio_check (T:=journal_table) (mkStatement EqRatio [0; 1; 2; 3]) (nil : journal)
    = Ok (true, nil : journal) ∧
  EqRatio_add (T:=journal_table)
    (mkDependency (mkStatement EqRatio [0; 1; 2; 3]) "premise" []) (nil : journal)
    = Ok (tt, nil : journal) ∧
  EqRatio_why (T:=journal_table) (mkStatement EqRatio [0; 1; 2; 3]) (nil : journal)
    = Ok (mkDependency (mkStatement EqRatio [0; 1; 2; 3]) "Ratio Chasing" [], nil : journal).
Proof.
  apply (EqRatio_single_group_vacuous (T:=journal_table)
           (mkDependency (mkStatement EqRatio [0; 1; 2; 3]) "premise" [])).
  simpl. lia.
Defined.

Lemma EqRatio_check_numerical_equivalence_witness :
  EqRatio_check_numerical (T:=journal_table) (Nm:=exact_numeric) chain (nil : journal)
    = Ok (true, nil : journal) ↔
  close_to_first (Nm:=exact_numeric) (group_ratios chain_groups).
Proof.
  apply (EqRatio_check_numerical_equivalence (T:=journal_table) (Nm:=exact_numeric)).
  - intros x y Hxy. apply bool_decide_eq_true in Hxy. by apply bool_decide_eq_true.
  - intros x y z Hxy Hyz. apply bool_decide_eq_true in Hxy, Hyz.
    apply bool_decide_eq_true. congruence.
  - reflexivity.
Defined.

(** ** More on [EqRatio.to_constructive] *)

(** X8. The rewrite keeps the proportion.  Read [eqratio x p q r s t u y]
    as [|pq| : |rs| = |tu| : |yx|], the reading under which the branch for
    the last point gives the input back.  Then for every symmetric length
    function the result, with [x] the given point, states the same
    proportion as the input [|ab| : |cd| = |ef| : |gh|], written here with
    products: the four segments are kept, and so is their pairing across
    the equality. *)
Theorem EqRatio_to_constructive_keeps_proportion
    (len : string → string → Z) point a b c d e f g h :
  (∀ x y, len x y = len y x) →
  point ∈ [a; b; c; d; e; f; g; h] →
  ∃ p q r s t u y,
    EqRatio_to_constructive point [a; b; c; d; e; f; g; h] =
      Ok (Some (String.concat " " ["eqratio"; point; p; q; r; s; t; u; y])) ∧
    (len p q * len point y = len r s * len t u ↔
     len a b * len g h = len c d * len e f).
Proof.
  intros Hsym Hin. unfold EqRatio_to_constructive.
  do 8 (case_bool_decide;
        [ match goal with Hpoint : point = _ |- _ => rewrite Hpoint end;
          do 7 eexists; split; [reflexivity|];
          repeat match goal with
                 | |- context [len ?x ?y] =>
                     lazymatch goal with
                     | |- context [len y x] => rewrite (Hsym y x)
                     end
                 end; lia
        | ]).
  exfalso. set_solver.
Qed.

Lemma EqRatio_to_constructive_keeps_proportion_witness :
  ∃ p q r s t u y,
    EqRatio_to_constructive "C" ["A"; "B"; "C"; "D"; "E"; "F"; "G"; "H"] =
      Ok (Some (String.concat " " ["eqratio"; "C"; p; q; r; s; t; u; y])) ∧
    (Z.of_nat (String.length p + String.length q) * Z.of_nat (String.length "C" + String.length y)
       = Z.of_nat (String.length r + String.length s) * Z.of_nat (String.length t + String.length u) ↔
     Z.of_nat (String.length "A" + String.length "B") * Z.of_nat (String.length "G" + String.length "H")
       = Z.of_nat (String.length "C" + String.length "D") * Z.of_nat (String.length "E" + String.length "F")).
Proof.
  apply (EqRatio_to_constructive_keeps_proportion
           (λ x y, Z.of_nat (String.length x + String.length y))
           "C" "A" "B" "C" "D" "E" "F" "G" "H").
  - intros x y. lia.
  - set_solver.
Defined.


(** ** Rule-node names *)

Lemma underscore_free_sep u d : underscore_free (u +:+ "_" +:+ d) = false.
Proof.
  induction u as [|c u IH]; [done|].
  change (String c u +:+ "_" +:+ d) with (String c (u +:+ "_" +:+ d)).
  cbn [underscore_free]. rewrite IH. apply andb_false_r.
Qed.

Lemma append_sep_inj u u' d d' :
  underscore_free d = true → underscore_free d' = true →
  u +:+ "_" +:+ d = u' +:+ "_" +:+ d' → u = u' ∧ d = d'.
Proof.
  intros Hd Hd'. revert u'. induction u as [|c u IH]; intros [|c' u'] Heq.
  - change (String underscore d = String underscore d') in Heq. by injection Heq as ->.
  - change (String underscore d = String c' (u' +:+ "_" +:+ d')) in Heq.
    injection Heq as _ ->. by rewrite underscore_free_sep in Hd.
  - change (String c (u +:+ "_" +:+ d) = String underscore d') in Heq.
    injection Heq as _ <-. by rewrite underscore_free_sep in Hd'.
  - change (String c (u +:+ "_" +:+ d) = String c' (u' +:+ "_" +:+ d')) in Heq.
    injection Heq as -> Heq. by destruct (IH _ Heq) as [-> ->].
Qed.

Lemma pretty_N_char_underscore_free x s :
  underscore_free s = true → underscore_free (String (pretty_N_char x) s) = true.
Proof.
  intros Hs. cbn [underscore_free]. rewrite Hs, andb_true_r.
  unfold pretty_N_char. by repeat case_match.
Qed.

Lemma pretty_N_go_underscore_free x s :
  underscore_free s = true → underscore_free (pretty_N_go x s) = true.
Proof.
  revert s. induction (N.lt_wf_0 x) as [x _ IH]; intros s Hs.
  assert (x = 0 ∨ 0 < x)%N as [->|Hx] by lia; [by rewrite pretty_N_go_0|].
  rewrite pretty_N_go_step by done.
  apply IH; [by apply N.div_lt|]. by apply pretty_N_char_underscore_free.
Qed.

Lemma pretty_nat_underscore_free (k : nat) : underscore_free (pretty k) = true.
Proof.
  unfold pretty, pretty_nat, pretty, pretty_N.
  case_decide; [done|]. by apply pretty_N_go_underscore_free.
Qed.

(** [r_X_k] names one rule [X] and one number [k]. *)
Lemma rule_node_name_inj (X Y : string) (k j : nat) :
  "r_" +:+ X +:+ "_" +:+ pretty k = "r_" +:+ Y +:+ "_" +:+ pretty j → X = Y ∧ k = j.
Proof.
  intros [= Heq].
  apply append_sep_inj in Heq as [-> Hk]; [|apply pretty_nat_underscore_free..].
  split; [done|]. by apply (inj pretty).
Qed.

Lemma new_rule_node_prefix rule_name rule_nodes :
  String.prefix ("r_" +:+ rule_name) (new_rule_node rule_name rule_nodes) = true.
Proof.
  unfold new_rule_node.
  change ("r_" +:+ rule_name +:+ ?t) with (("r_" +:+ rule_name) +:+ t).
  apply prefix_append.
Qed.

Lemma new_rule_node_fresh rule_name rule_nodes :
  rule_numbered rule_nodes → new_rule_node rule_name rule_nodes ∉ rule_nodes.
Proof.
  intros Hnum Hin. apply Hnum in Hin. lia.
Qed.

Lemma rule_numbered_empty : rule_numbered ∅.
Proof. intros X k Hin. set_solver. Qed.

Lemma rule_numbered_add rule_name rule_nodes :
  rule_numbered rule_nodes →
  rule_numbered ({[new_rule_node rule_name rule_nodes]} ∪ rule_nodes).
Proof.
  intros Hnum X k Hin.
  pose proof (new_rule_node_fresh rule_name _ Hnum) as Hfresh.
  apply elem_of_union in Hin as [Hin%elem_of_singleton|Hin].
  - apply rule_node_name_inj in Hin as [-> ->].
    rewrite filter_union_L, filter_singleton_L; [|apply _..].
    rewrite decide_True by apply new_rule_node_prefix.
    rewrite size_union, size_singleton; [lia|].
    apply disjoint_singleton_l. intros Hin%elem_of_filter. by destruct Hin.
  - etrans; [by apply Hnum|].
    apply subseteq_size. intros rn [Hrn Hin']%elem_of_filter.
    apply elem_of_filter. split; [done|set_solver].
Qed.

Lemma size_add_new_rule_node rule_name rule_nodes :
  rule_numbered rule_nodes →
  size ({[new_rule_node rule_name rule_nodes]} ∪ rule_nodes) = S (size rule_nodes).
Proof.
  intros Hnum. rewrite size_union, size_singleton; [done|].
  apply disjoint_singleton_l. by apply new_rule_node_fresh.
Qed.

(** ** [parse_proof_relations] on arbitrary labels *)

Lemma layers_of_total (node_layer : gmap string Z) ps :
  (∀ p, p ∈ ps → is_Some (node_layer !! p)) →
  ∃ ks, layers_of node_layer ps = Ok ks ∧ length ks = length ps.
Proof.
  induction ps as [|p ps IH]; intros Hps; simpl.
  - by exists [].
  - destruct (Hps p) as [k ->]; [set_solver|].
    destruct IH as (ks & -> & Hlen); [set_solver|].
    exists (k :: ks). split; [done|]. simpl. lia.
Qed.

Lemma record_conclusion_wired g concl_part concl_label :
  wired g → wired (record_conclusion g concl_part concl_label).
Proof.
  intros [Hstmts Hlayers Hedges Hnum]. split; simpl.
  - rewrite dom_insert_L. by rewrite Hstmts.
  - intros f Hf. destruct (decide (f = concl_label)) as [->|Hne].
    + destruct (node_layer g !! concl_label) eqn:Hc; [by rewrite Hc|].
      by rewrite lookup_insert_eq.
    + assert (f ∈ fact_nodes g) as Hf' by set_solver.
      destruct (node_layer g !! concl_label) eqn:Hc; [by apply Hlayers|].
      rewrite lookup_insert_ne by done. by apply Hlayers.
  - intros u v Huv. destruct (Hedges u v Huv) as [[Hu Hv]|[Hu Hv]]; set_solver.
  - done.
Qed.

(** One iteration never raises, and does the bookkeeping the loop body
    shows. *)
Lemma parse_line_wired g line :
  wired g →
  ∃ g', parse_line g line = Ok g' ∧ wired g' ∧
    stmt_map g' = foldl (λ m c, <[c.1 := c.2]> m) (stmt_map g) (conclusions [line]) ∧
    fact_nodes g' = fact_nodes g ∪ list_to_set (conclusions [line]).*1 ∧
    initial_fact_nodes g' = initial_fact_nodes g ∧
    size (rule_nodes g') = (size (rule_nodes g) + length (filter is_derivation [line]))%nat.
Proof.
  intros Hg. destruct line as [|concl_part concl_label|concl_part concl_label rule_name premise_labels].
  - exists g. simpl. split_and!; try done; try set_solver; simpl; lia.
  - eexists. split; [done|]. split; [by apply record_conclusion_wired|].
    simpl. split_and!; try done; try set_solver; simpl; lia.
  - pose proof (record_conclusion_wired g concl_part concl_label Hg) as Hg1.
    unfold parse_line. cbv zeta.
    set (g1 := record_conclusion g concl_part concl_label) in *.
    pose proof (wired_numbered g1 Hg1) as Hnum.
    pose proof (rule_numbered_add rule_name _ Hnum) as Hnum'.
    pose proof (size_add_new_rule_node rule_name _ Hnum) as Hsize.
    remember (new_rule_node rule_name (rule_nodes g1)) as rule_node eqn:Hrn. clear Hrn.
    assert (Hbook :
      stmt_map g1 = foldl (λ m c, <[c.1 := c.2]> m) (stmt_map g)
                          (conclusions [Derivation concl_part concl_label rule_name premise_labels]) ∧
      fact_nodes g1 = fact_nodes g ∪
        list_to_set (conclusions [Derivation concl_part concl_label rule_name premise_labels]).*1 ∧
      initial_fact_nodes g1 = initial_fact_nodes g ∧
      size ({[rule_node]} ∪ rule_nodes g1) =
        (size (rule_nodes g) +
         length (filter is_derivation
                   [Derivation concl_part concl_label rule_name premise_labels]))%nat).
    { split_and!; try done; [simpl; set_solver|].
      rewrite Hsize. simpl. lia. }
    assert (Hvalid : ∀ p, p ∈ filter (λ p, is_Some (stmt_map g1 !! p)) premise_labels →
                          p ∈ fact_nodes g1).
    { intros p [Hp _]%list_elem_of_filter.
      rewrite <- (wired_stmts g1 Hg1). by apply elem_of_dom. }
    destruct (filter (λ p, is_Some (stmt_map g1 !! p)) premise_labels)
      as [|p valid_premises] eqn:Hfilter.
    + eexists. split; [reflexivity|]. split; [|exact Hbook].
      destruct Hg1 as [Hstmts Hlayers Hedges _].
      split; cbn [stmt_map fact_nodes rule_nodes edges node_layer initial_fact_nodes].
      * exact Hstmts.
      * exact Hlayers.
      * intros u v Huv.
        destruct (Hedges u v Huv) as [[Hu Hv]|[Hu Hv]];
          [left|right]; (split; [done || by apply elem_of_union_r|]);
          done || by apply elem_of_union_r.
      * exact Hnum'.
    + destruct (layers_of_total (node_layer g1) (p :: valid_premises))
        as (prem_layers & -> & Hlen).
      { intros q Hq. by apply (wired_layers g1 Hg1), Hvalid. }
      destruct prem_layers as [|k ks]; [done|]. cbn [py_max].
      remember (p :: valid_premises) as vp eqn:Hvp. clear Hvp Hfilter Hlen.
      eexists. split; [reflexivity|]. split; [|exact Hbook].
      destruct Hg1 as [Hstmts Hlayers Hedges _].
      split; cbn [stmt_map fact_nodes rule_nodes edges node_layer initial_fact_nodes].
      * exact Hstmts.
      * intros f Hf.
        destruct (decide (f = concl_label)) as [->|Hne];
          [by rewrite lookup_insert_eq|rewrite lookup_insert_ne by done].
        destruct (decide (f = rule_node)) as [->|Hne'];
          [by rewrite lookup_insert_eq|rewrite lookup_insert_ne by done].
        by apply Hlayers.
      * intros u v Huv. rewrite !elem_of_app in Huv.
        destruct Huv as [Huv|[Huv|Huv]].
        -- destruct (Hedges u v Huv) as [[Hu Hv]|[Hu Hv]];
             [left|right]; (split; [done || by apply elem_of_union_r|]);
             done || by apply elem_of_union_r.
        -- apply list_elem_of_fmap in Huv as (q & [= -> ->] & Hq).
           left. split; [by apply Hvalid|]. by apply elem_of_union_l, elem_of_singleton.
        -- apply list_elem_of_singleton in Huv. injection Huv as -> ->.
           right. split; [by apply elem_of_union_l, elem_of_singleton|].
           unfold g1. cbn [fact_nodes record_conclusion].
           by apply elem_of_union_l, elem_of_singleton.
      * exact Hnum'.
Qed.

Lemma parse_lines_wired g proof_lines :
  wired g →
  ∃ g', parse_lines g proof_lines = Ok g' ∧ wired g' ∧
    stmt_map g' = foldl (λ m c, <[c.1 := c.2]> m) (stmt_map g) (conclusions proof_lines) ∧
    fact_nodes g' = fact_nodes g ∪ list_to_set (conclusions proof_lines).*1 ∧
    initial_fact_nodes g' = initial_fact_nodes g ∧
    size (rule_nodes g') =
      (size (rule_nodes g) + length (filter is_derivation proof_lines))%nat.
Proof.
  revert g. induction proof_lines as [|line proof_lines IH]; intros g Hg.
  - exists g. simpl. split_and!; try done; try set_solver; simpl; lia.
  - destruct (parse_line_wired g line Hg) as (g1 & Hline & Hg1 & Hs1 & Hf1 & Hi1 & Hr1).
    destruct (IH g1 Hg1) as (g' & Hlines & Hg' & Hs & Hf & Hi & Hr).
    exists g'. cbn [parse_lines]. rewrite Hline. split; [done|]. split; [done|].
    change (line :: proof_lines) with ([line] ++ proof_lines).
    unfold conclusions in *. rewrite bind_app, foldl_app, fmap_app, list_to_set_app_L.
    rewrite filter_app, length_app.
    rewrite Hs, Hs1, Hf, Hf1, Hi, Hi1, Hr, Hr1.
    split_and!; [reflexivity|by rewrite (assoc_L (∪))|reflexivity|lia].
Qed.

Lemma initial_wired (initial_stmt_map : gmap string string) :
  wired (mkGraph initial_stmt_map (dom initial_stmt_map) ∅ []
                 (gset_to_gmap 1 (dom initial_stmt_map)) (dom initial_stmt_map)).
Proof.
  split; simpl.
  - done.
  - intros f Hf. rewrite lookup_gset_to_gmap, option_guard_True by done. by eexists.
  - intros u v Huv. by apply elem_of_nil in Huv.
  - apply rule_numbered_empty.
Qed.

(** X9. [parse_proof_relations] returns a graph on every input: neither
    [node_layer[p]] nor [max(prem_layers)] can raise.  In the graph it
    returns, the initial fact nodes are the keys of the initial map; the fact
    nodes are those keys and the labels the lines conclude; the statement map
    is the initial map updated with each conclusion in the order of the
    lines, so a later conclusion replaces an earlier statement with the same
    label; every fact node has a statement and a layer. *)
Theorem parse_proof_relations_never_raises
    (proof_lines : list proof_line) (initial_stmt_map : gmap string string) :
  ∃ g, parse_proof_relations proof_lines initial_stmt_map = Ok g ∧
    initial_fact_nodes g = dom initial_stmt_map ∧
    fact_nodes g = dom initial_stmt_map ∪ list_to_set (conclusions proof_lines).*1 ∧
    stmt_map g = foldl (λ m c, <[c.1 := c.2]> m) initial_stmt_map (conclusions proof_lines) ∧
    (∀ f, f ∈ fact_nodes g → is_Some (stmt_map g !! f) ∧ is_Some (node_layer g !! f)).
Proof.
  destruct (parse_lines_wired _ proof_lines (initial_wired initial_stmt_map))
    as (g & Hparse & Hg & Hs & Hf & Hi & _).
  exists g. split; [done|]. split; [done|]. split; [done|]. split; [done|].
  intros f Hf'. split; [|by apply (wired_layers g Hg)].
  apply elem_of_dom. by rewrite (wired_stmts g Hg).
Qed.

(** X10. Every line that reaches the rule-node bookkeeping gets a rule node
    of its own: the name built from the count of the nodes starting with
    [r_<rule_name>] is never one already in use, so the graph has as many
    rule nodes as there are such lines, whatever the rule names are. *)
Theorem rule_nodes_one_per_derivation
    (proof_lines : list proof_line) (initial_stmt_map : gmap string string) :
  ∃ g, parse_proof_relations proof_lines initial_stmt_map = Ok g ∧
    size (rule_nodes g) = length (filter is_derivation proof_lines) ∧
    ∀ rule_name, new_rule_node rule_name (rule_nodes g) ∉ rule_nodes g.
Proof.
  destruct (parse_lines_wired _ proof_lines (initial_wired initial_stmt_map))
    as (g & Hparse & Hg & _ & _ & _ & Hr).
  exists g. split; [done|]. split; [by rewrite Hr|].
  intros rule_name. apply new_rule_node_fresh, (wired_numbered g Hg).
Qed.


(** ** The exported graph *)

Lemma split_underscore_nonempty s : split_underscore s ≠ [].
Proof.
  destruct s as [|c s]; [done|]. cbn [split_underscore].
  destruct (Ascii.eqb c underscore); [done|].
  by destruct (split_underscore s).
Qed.

(** ['_'.join(s.split('_'))] is [s]. *)
Lemma concat_split_underscore s : String.concat "_" (split_underscore s) = s.
Proof.
  induction s as [|c s IH]; [done|]. cbn [split_underscore].
  pose proof (split_underscore_nonempty s) as Hne.
  destruct (Ascii.eqb c underscore) eqn:Hc.
  - apply Ascii.eqb_eq in Hc as ->.
    destruct (split_underscore s) as [|w ws]; [done|].
    rewrite <- IH. reflexivity.
  - destruct (split_underscore s) as [|w ws]; [done|].
    rewrite <- IH. by destruct ws.
Qed.

Lemma rule_label_prefix s : rule_label ("r_" +:+ s) = s.
Proof.
  unfold rule_label.
  change ("r_" +:+ s) with (String (Ascii.ascii_of_N 114) (String underscore s)).
  cbn [split_underscore].
  change (Ascii.eqb (Ascii.ascii_of_N 114) underscore) with false.
  change (Ascii.eqb underscore underscore) with true.
  cbn [drop]. apply concat_split_underscore.
Qed.

(** X11. The text shown for a rule node is the rule name followed by the
    node's number: [split] and [join] undo each other, so only the leading
    [r_] goes, also when the rule name has underscores of its own. *)
Theorem rule_label_of_new_rule_node (rule_name : string) (rule_nodes : gset string) :
  ∃ k : nat,
    new_rule_node rule_name rule_nodes = "r_" +:+ rule_name +:+ "_" +:+ pretty k ∧
    rule_label (new_rule_node rule_name rule_nodes) = rule_name +:+ "_" +:+ pretty k.
Proof.
  eexists. split; [reflexivity|]. apply rule_label_prefix.
Qed.

Lemma fact_records_Ok (stmt_map : gmap string string) node_layer initial labels :
  (∀ l, l ∈ labels → is_Some (stmt_map !! l)) →
  ∃ nodes, fact_records stmt_map node_layer initial labels = Ok nodes ∧
           nd_id <$> nodes = labels ∧
           ∀ n, n ∈ nodes →
             stmt_map !! nd_id n = Some (nd_label n) ∧
             nd_layer n = default 1 (node_layer !! nd_id n) ∧
             (nd_type n = "initial_fact" ∧ nd_shape n = "ellipse" ∧ nd_id n ∈ initial ∨
              nd_type n = "derived_fact" ∧ nd_shape n = "box" ∧ nd_id n ∉ initial).
Proof.
  induction labels as [|label labels IH]; intros Hlabels.
  - exists []. split; [done|]. split; [done|]. intros n Hn. by apply elem_of_nil in Hn.
  - destruct IH as (nodes & Hnodes & Hids & Hall); [set_solver|].
    destruct (Hlabels label) as [text Htext]; [set_solver|].
    cbn [fact_records]. rewrite Htext, Hnodes.
    destruct (decide (label ∈ initial)) as [Hin|Hout].
    + eexists. split; [done|]. split; [by rewrite fmap_cons, Hids|].
      intros n [->|Hn]%elem_of_cons; [|by apply Hall]. cbn.
      split; [done|]. split; [done|]. by left.
    + eexists. split; [done|]. split; [by rewrite fmap_cons, Hids|].
      intros n [->|Hn]%elem_of_cons; [|by apply Hall]. cbn.
      split; [done|]. split; [done|]. by right.
Qed.

Lemma rule_records_ids node_layer rules : nd_id <$> rule_records node_layer rules = rules.
Proof.
  unfold rule_records. rewrite <- list_fmap_compose. by rewrite <- (list_fmap_id rules) at 2.
Qed.

(** X12. On the graph [parse_proof_relations] returns, whatever the input,
    whatever layers [adjust_node_layers] leaves and in whatever order the two
    sets are walked, [export_to_json] builds its data without a [KeyError]:
    one node per fact node, then one per rule node, and one link per edge.
    Every fact node carries its statement; it is an ellipse of type
    [initial_fact] exactly when its label is a key of the initial map, also
    when a line of the proof concludes that label again, and a box of type
    [derived_fact] otherwise.  Both ends of every link are among the
    exported node ids. *)
Theorem export_to_json_wellformed
    (proof_lines : list proof_line) (initial_stmt_map : gmap string string) :
  ∃ g, parse_proof_relations proof_lines initial_stmt_map = Ok g ∧
    ∀ (facts rules : list string) (layer : gmap string Z),
      facts ≡ₚ elements (fact_nodes g) → rules ≡ₚ elements (rule_nodes g) →
      ∃ nodes,
        export_json_data (stmt_map g) facts rules (edges g) layer (initial_fact_nodes g)
          = Ok (mkJson (nodes ++ rule_records layer rules) (link_records (edges g))) ∧
        nd_id <$> nodes = facts ∧
        (∀ n, n ∈ nodes →
           stmt_map g !! nd_id n = Some (nd_label n) ∧
           nd_layer n = default 1 (layer !! nd_id n) ∧
           (nd_type n = "initial_fact" ∧ nd_shape n = "ellipse" ∧
              nd_id n ∈ dom initial_stmt_map ∨
            nd_type n = "derived_fact" ∧ nd_shape n = "box" ∧
              nd_id n ∉ dom initial_stmt_map)) ∧
        ∀ l, l ∈ link_records (edges g) →
          lk_source l ∈ nd_id <$> nodes ++ rule_records layer rules ∧
          lk_target l ∈ nd_id <$> nodes ++ rule_records layer rules.
Proof.
  destruct (parse_lines_wired _ proof_lines (initial_wired initial_stmt_map))
    as (g & Hparse & Hg & _ & _ & Hi & _).
  exists g. split; [done|]. intros facts rules layer Hfacts Hrules.
  destruct (fact_records_Ok (stmt_map g) layer (initial_fact_nodes g) facts)
    as (nodes & Hnodes & Hids & Hall).
  { intros l Hl. rewrite Hfacts in Hl. apply elem_of_elements in Hl.
    apply elem_of_dom. by rewrite (wired_stmts g Hg). }
  unfold export_json_data. rewrite Hnodes. exists nodes. split; [done|].
  split; [done|]. split.
  - intros n Hn. cbn [initial_fact_nodes] in Hi. rewrite <- Hi. by apply Hall.
  - intros l ([u v] & -> & Huv)%list_elem_of_fmap. cbn [lk_source lk_target].
    rewrite fmap_app, Hids, rule_records_ids, !elem_of_app, Hfacts, Hrules,
      !elem_of_elements.
    destruct (wired_edges g Hg u v Huv) as [[Hu Hv]|[Hu Hv]]; auto.
Qed.


(** ** Reading the data file *)

Section read_and_validate_data_facts.
Context {J : Type} (strip : string → string) (loads : string → option J).


End read_and_validate_data_facts.


(** ** More on [adjust_node_layers] *)

Lemma premises_elem (edges : list (string * string)) r x :
  x ∈ (fst <$> filter (λ e, e.2 = r) edges) ↔ (x, r) ∈ edges.
Proof.
  rewrite list_elem_of_fmap. split.
  - intros ([u v] & -> & [Hv Huv]%list_elem_of_filter). simpl in *. by subst.
  - intros Hx. exists (x, r). split; [done|]. by apply list_elem_of_filter.
Qed.

Lemma adjust_rule_lookup edges (nl : gmap string Z) r x :
  adjust_rule edges nl r !! x =
  if decide ((x, r) ∈ edges ∧ default 0 (nl !! r) `mod` 2 = 0)
  then Some (default 0 (nl !! r) - 1) else nl !! x.
Proof.
  unfold adjust_rule. pose proof (premises_elem edges r x) as Hprem.
  destruct (fst <$> filter (λ e, e.2 = r) edges) as [|p ps] eqn:Hps.
  - rewrite decide_False; [done|]. intros [Hx _]. apply Hprem in Hx.
    by apply elem_of_nil in Hx.
  - case_bool_decide as Heven.
    + rewrite foldl_insert_lookup.
      destruct (decide (x ∈ p :: ps)) as [Hin|Hout].
      * by rewrite decide_True by (by split; [apply Hprem|]).
      * rewrite decide_False; [done|]. intros [Hx _]. by apply Hprem in Hx.
    + rewrite decide_False; [done|]. by intros [_ Hx].
Qed.

Lemma adjust_rule_overlay edges (nl : gmap string Z) r :
  adjust_rule edges nl r = overlay edges nl r ∪ nl.
Proof.
  apply map_eq. intros x. rewrite adjust_rule_lookup, lookup_union. unfold overlay.
  case_bool_decide as Heven.
  - rewrite lookup_gset_to_gmap.
    destruct (decide ((x, r) ∈ edges ∧ _)) as [[Hx _]|Hout].
    + rewrite option_guard_True by (by apply elem_of_list_to_set, premises_elem).
      by destruct (nl !! x).
    + rewrite option_guard_False; [by destruct (nl !! x)|].
      intros Hx%elem_of_list_to_set%premises_elem. by apply Hout.
  - rewrite decide_False by (by intros [_ Hx]).
    rewrite lookup_empty. by destruct (nl !! x).
Qed.

Lemma overlay_lookup_None edges (nl : gmap string Z) r x :
  (x, r) ∉ edges → overlay edges nl r !! x = None.
Proof.
  intros Hx. unfold overlay. case_bool_decide; [|done].
  apply lookup_gset_to_gmap_None. by intros Hin%elem_of_list_to_set%premises_elem.
Qed.

Lemma adjust_node_layers_in_unchanged (order : list string)
    (edges : list (string * string)) (node_layer : gmap string Z) (x : string) :
  (∀ r, r ∈ order → (x, r) ∉ edges) →
  adjust_node_layers_in order edges node_layer !! x = node_layer !! x.
Proof.
  unfold adjust_node_layers_in. revert node_layer.
  induction order as [|r order IH]; intros node_layer Hx; [done|].
  cbn [foldl]. rewrite IH by (intros r' Hr'; apply Hx; set_solver).
  rewrite adjust_rule_lookup, decide_False; [done|].
  intros [Hin _]. by apply (Hx r); [set_solver|].
Qed.

(** X14. [adjust_node_layers] changes no layer but those of the premises of
    the rule nodes it walks: a node with no edge into one of them keeps its
    layer, or stays without one. *)
Theorem adjust_node_layers_frame (order : list string) (edges : list (string * string))
    (node_layer : gmap string Z) (x : string) :
  (∀ r, r ∈ order → (x, r) ∉ edges) →
  adjust_node_layers_in order edges node_layer !! x = node_layer !! x.
Proof. apply adjust_node_layers_in_unchanged. Qed.

Lemma adjust_node_layers_frame_witness :
  adjust_node_layers_in ["r_r00_1"] [("001", "r_r00_1"); ("r_r00_1", "002")]
    {[ "001" := 1; "r_r00_1" := 2; "002" := 3 ]} !! "002" =
  ({[ "001" := 1; "r_r00_1" := 2; "002" := 3 ]} : gmap string Z) !! "002".
Proof.
  apply (adjust_node_layers_frame ["r_r00_1"] [("001", "r_r00_1"); ("r_r00_1", "002")]
           {[ "001" := 1; "r_r00_1" := 2; "002" := 3 ]} "002").
  intros r ->%list_elem_of_singleton.
  intros [[=]|[[=]|[]%elem_of_nil]%elem_of_cons]%elem_of_cons.
Defined.

(** X15. The premises of a rule node with an even layer [k] end on layer
    [k - 1], as long as no rule node walked after it shares them: for the
    walk [before ++ rule_node :: after], a premise of [rule_node] that is a
    premise of no node of [after] ends on layer [k - 1].  (That [rule_node]
    is a premise of no node of [before] keeps its own layer at [k] until its
    turn.) *)
Theorem adjust_node_layers_aligns (before after : list string) (rule_node : string)
    (edges : list (string * string)) (node_layer : gmap string Z) (k : Z) (p : string) :
  node_layer !! rule_node = Some k → k `mod` 2 = 0 →
  (∀ r, r ∈ before → (rule_node, r) ∉ edges) →
  (p, rule_node) ∈ edges →
  (∀ r, r ∈ after → (p, r) ∉ edges) →
  adjust_node_layers_in (before ++ rule_node :: after) edges node_layer !! p = Some (k - 1).
Proof.
  intros Hk Heven Hbefore Hp Hafter.
  unfold adjust_node_layers_in. rewrite foldl_app. cbn [foldl].
  fold (adjust_node_layers_in before edges node_layer).
  set (nl := adjust_node_layers_in before edges node_layer).
  fold (adjust_node_layers_in after edges (adjust_rule edges nl rule_node)).
  rewrite (adjust_node_layers_in_unchanged after) by done.
  assert (nl !! rule_node = Some k) as Hk'.
  { unfold nl. by rewrite (adjust_node_layers_in_unchanged before). }
  rewrite adjust_rule_lookup, Hk'. by rewrite decide_True.
Qed.

Lemma adjust_node_layers_aligns_witness :
  adjust_node_layers_in ([] ++ "r_r00_1" :: [])
    [("001", "r_r00_1"); ("r_r00_1", "002")]
    {[ "001" := 1; "r_r00_1" := 4; "002" := 5 ]} !! "001" = Some (4 - 1).
Proof.
  apply (adjust_node_layers_aligns [] [] "r_r00_1"
           [("001", "r_r00_1"); ("r_r00_1", "002")]
           {[ "001" := 1; "r_r00_1" := 4; "002" := 5 ]} 4 "001").
  - reflexivity.
  - reflexivity.
  - intros r []%elem_of_nil.
  - apply list_elem_of_here.
  - intros r []%elem_of_nil.
Defined.

Lemma adjust_node_layers_in_overlay (order walk : list string)
    (edges : list (string * string)) (node_layer : gmap string Z) :
  (∀ r r', r ∈ order → r' ∈ order → (r, r') ∉ edges) →
  (∀ r, r ∈ walk → r ∈ order) →
  ∃ W : gmap string Z,
    (∀ r, r ∈ order → W !! r = None) ∧
    ∀ nl : gmap string Z, (∀ r, r ∈ order → nl !! r = node_layer !! r) →
      adjust_node_layers_in walk edges nl = W ∪ nl.
Proof.
  intros Hrules. induction walk as [|r walk IH]; intros Hwalk.
  - exists ∅. split; [done|]. intros nl _. by rewrite (left_id_L ∅ (∪)).
  - destruct IH as (W & HW & IH); [set_solver|].
    assert (r ∈ order) as Hr by set_solver.
    exists (W ∪ overlay edges node_layer r). split.
    + intros r' Hr'. apply lookup_union_None. split; [by apply HW|].
      apply overlay_lookup_None. by apply Hrules.
    + intros nl Hnl. unfold adjust_node_layers_in. cbn [foldl].
      fold (adjust_node_layers_in walk edges (adjust_rule edges nl r)).
      rewrite adjust_rule_overlay.
      assert (overlay edges nl r = overlay edges node_layer r) as ->.
      { unfold overlay. by rewrite (Hnl r Hr). }
      rewrite IH; [by rewrite (assoc_L (∪))|].
      intros r' Hr'. rewrite lookup_union_r; [by apply Hnl|].
      apply overlay_lookup_None. by apply Hrules.
Qed.

(** X16. When no rule node of the walk is itself a premise of one, walking
    the rule nodes a second time in the same order changes nothing. *)
Theorem adjust_node_layers_idempotent (order : list string)
    (edges : list (string * string)) (node_layer : gmap string Z) :
  (∀ r r', r ∈ order → r' ∈ order → (r, r') ∉ edges) →
  adjust_node_layers_in order edges (adjust_node_layers_in order edges node_layer) =
  adjust_node_layers_in order edges node_layer.
Proof.
  intros Hrules.
  destruct (adjust_node_layers_in_overlay order order edges node_layer Hrules)
    as (W & HW & Hadjust); [done|].
  rewrite (Hadjust node_layer) by done.
  rewrite Hadjust.
  - by rewrite (assoc_L (∪)), (idemp_L (∪)).
  - intros r Hr. by rewrite lookup_union_r by (by apply HW).
Qed.

Lemma adjust_node_layers_idempotent_witness :
  adjust_node_layers_in ["r_r00_1"] [("001", "r_r00_1"); ("r_r00_1", "002")]
    (adjust_node_layers_in ["r_r00_1"] [("001", "r_r00_1"); ("r_r00_1", "002")]
       {[ "001" := 1; "r_r00_1" := 4; "002" := 5 ]}) =
  adjust_node_layers_in ["r_r00_1"] [("001", "r_r00_1"); ("r_r00_1", "002")]
    {[ "001" := 1; "r_r00_1" := 4; "002" := 5 ]}.
Proof.
  apply (adjust_node_layers_idempotent ["r_r00_1"]
           [("001", "r_r00_1"); ("r_r00_1", "002")]
           {[ "001" := 1; "r_r00_1" := 4; "002" := 5 ]}).
  intros r r' ->%list_elem_of_singleton ->%list_elem_of_singleton.
  intros [[=]|[[=]|[]%elem_of_nil]%elem_of_cons]%elem_of_cons.
Defined.


(** ** Layers along the edges *)

Lemma layers_of_lookup (node_layer : gmap string Z) ps ks :
  layers_of node_layer ps = Ok ks →
  ∀ p, p ∈ ps → ∃ k, node_layer !! p = Some k ∧ k ∈ ks.
Proof.
  revert ks. induction ps as [|q ps IH]; intros ks Hks p Hp.
  - by apply elem_of_nil in Hp.
  - cbn [layers_of] in Hks. destruct (node_layer !! q) as [kq|] eqn:Hq; [|done].
    destruct (layers_of node_layer ps) as [ks'|] eqn:Hps; [|done].
    injection Hks as <-.
    apply elem_of_cons in Hp as [->|Hp].
    + exists kq. split; [done|]. apply list_elem_of_here.
    + destruct (IH ks' eq_refl p Hp) as (k & Hk & Hin).
      exists k. split; [done|]. by apply list_elem_of_further.
Qed.

Lemma foldl_max_le (k : Z) ks : k ≤ foldl Z.max k ks.
Proof.
  revert k. induction ks as [|k0 ks IH]; intros k; [simpl; lia|].
  cbn [foldl]. etrans; [|apply IH]. lia.
Qed.

Lemma foldl_max_ge (k : Z) ks k' : k' ∈ k :: ks → k' ≤ foldl Z.max k ks.
Proof.
  revert k. induction ks as [|k0 ks IH]; intros k Hk'.
  - apply list_elem_of_singleton in Hk' as ->. simpl. lia.
  - cbn [foldl]. apply elem_of_cons in Hk' as [->|Hk'].
    + etrans; [|apply foldl_max_le]. lia.
    + apply elem_of_cons in Hk' as [->|Hk'].
      * etrans; [|apply foldl_max_le]. lia.
      * apply IH. by apply list_elem_of_further.
Qed.

Lemma new_label_no_layer g l :
  layered g → ¬ rule_like l → l ∉ fact_nodes g → node_layer g !! l = None.
Proof.
  intros Hg Hl Hnew. destruct (node_layer g !! l) as [k|] eqn:Hk; [|done].
  destruct (layered_dom g Hg l) as [Hfact|Hrule]; [by eauto|done|].
  by apply (layered_rules g Hg) in Hrule.
Qed.

Lemma upward_insert_new edges (nl : gmap string Z) x k :
  nl !! x = None → upward edges nl → upward edges (<[x := k]> nl).
Proof.
  intros Hx Hup u v Huv. destruct (Hup u v Huv) as (ku & kv & Hu & Hv & Hlt).
  exists ku, kv. rewrite !lookup_insert_ne by congruence. done.
Qed.

Lemma record_conclusion_ranked g concl_part concl_label :
  ranked g → ¬ rule_like concl_label → concl_label ∉ fact_nodes g →
  ranked (record_conclusion g concl_part concl_label) ∧
  node_layer (record_conclusion g concl_part concl_label) =
    <[concl_label := 1]> (node_layer g).
Proof.
  intros [Hg Hnum Hup] Hlabel Hnew.
  pose proof (new_label_no_layer g concl_label Hg Hlabel Hnew) as Hnone.
  assert (node_layer (record_conclusion g concl_part concl_label) =
            <[concl_label := 1]> (node_layer g)) as Hnl.
  { cbn [record_conclusion node_layer]. by rewrite Hnone. }
  split; [|done]. split.
  - by apply record_conclusion_layered.
  - done.
  - rewrite Hnl. cbn [record_conclusion edges]. by apply upward_insert_new.
Qed.

Lemma parse_line_ranked g line :
  ranked g →
  (∀ l, l ∈ line_labels line → ¬ rule_like l) →
  (∀ l, l ∈ (conclusions [line]).*1 → l ∉ fact_nodes g) →
  ¬ self_citing line →
  ∃ g', parse_line g line = Ok g' ∧ ranked g' ∧
        fact_nodes g' = fact_nodes g ∪ list_to_set (conclusions [line]).*1.
Proof.
  intros Hg Hlabels Hnew Hself.
  destruct line as [|concl_part concl_label|concl_part concl_label rule_name premise_labels].
  - exists g. split; [done|]. split; [done|]. cbn. set_solver.
  - destruct (record_conclusion_ranked g concl_part concl_label Hg) as [Hg1 _].
    { apply Hlabels. cbn. set_solver. }
    { apply Hnew. cbn. set_solver. }
    eexists. split; [done|]. split; [done|]. cbn. set_solver.
  - destruct (record_conclusion_ranked g concl_part concl_label Hg) as [Hg1 Hnl1].
    { apply Hlabels. cbn. set_solver. }
    { apply Hnew. cbn. set_solver. }
    assert (Hlabel : ¬ rule_like concl_label) by (apply Hlabels; cbn; set_solver).
    assert (Hnone : node_layer g !! concl_label = None).
    { apply new_label_no_layer; [by destruct Hg|done|]. apply Hnew. cbn. set_solver. }
    cbn [self_citing] in Hself.
    unfold parse_line. cbv zeta.
    assert (Hfacts : fact_nodes (record_conclusion g concl_part concl_label) =
              fact_nodes g ∪
              list_to_set (conclusions
                [Derivation concl_part concl_label rule_name premise_labels]).*1).
    { cbn. set_solver. }
    pose proof (ranked_upward g Hg) as Hup.
    assert (Hedges1 : edges (record_conclusion g concl_part concl_label) = edges g) by done.
    clear Hnew Hlabels.
    remember (record_conclusion g concl_part concl_label) as g1 eqn:Hg1def.
    clear Hg1def.
    destruct Hg1 as [Hlay1 Hnum1 Hup1].
    pose proof (rule_numbered_add rule_name _ Hnum1) as Hnum'.
    pose proof (new_rule_node_fresh rule_name _ Hnum1) as Hfresh.
    pose proof (new_rule_node_rule_like rule_name (rule_nodes g1)) as Hrule.
    remember (new_rule_node rule_name (rule_nodes g1)) as rule_node eqn:Hrn. clear Hrn.
    assert (Hconcl : concl_label ∈ fact_nodes g1) by (rewrite Hfacts; cbn; set_solver).
    assert (Hrn_none : node_layer g1 !! rule_node = None).
    { destruct (node_layer g1 !! rule_node) as [k|] eqn:Hk; [|done].
      destruct (layered_dom g1 Hlay1 rule_node) as [Hfact|Hr]; [by eauto| |done].
      by apply (layered_facts g1 Hlay1) in Hfact. }
    assert (Hvalid : ∀ p, p ∈ filter (λ p, is_Some (stmt_map g1 !! p)) premise_labels →
                          p ∈ fact_nodes g1 ∧ p ≠ concl_label).
    { intros p [Hp Hin]%list_elem_of_filter. split.
      - rewrite <- (layered_stmts g1 Hlay1). by apply elem_of_dom.
      - by intros ->. }
    destruct (filter (λ p, is_Some (stmt_map g1 !! p)) premise_labels)
      as [|p valid_premises] eqn:Hfilter.
    + eexists. split; [reflexivity|]. split; [|exact Hfacts]. split.
      * by apply register_rule_layered.
      * exact Hnum'.
      * exact Hup1.
    + destruct (layers_of_Ok (node_layer g1) (p :: valid_premises))
        as (prem_layers & Hlayers & Hlen & Hodd).
      { intros q Hq. apply (layered_odd g1 Hlay1). by apply Hvalid. }
      pose proof (layers_of_lookup _ _ _ Hlayers) as Hlookup.
      rewrite Hlayers.
      destruct prem_layers as [|k ks]; [done|]. cbn [py_max].
      apply Forall_cons in Hodd as [Hk Hks].
      pose proof (foldl_max_ge k ks) as Hmax.
      pose proof (foldl_max_odd k ks Hk Hks) as Hmax_odd.
      remember (foldl Z.max k ks) as max_prem_layer eqn:Hm. clear Hm.
      remember (p :: valid_premises) as vp eqn:Hvp.
      assert (Hne : vp ≠ []) by (by rewrite Hvp).
      clear Hvp Hfilter Hlen Hlayers.
      eexists. split; [reflexivity|]. split; [|exact Hfacts]. split.
      * apply derive_layered; try done.
        -- intros q Hq. by apply Hvalid.
        -- by rewrite Z.add_1_r, Z.even_succ.
      * exact Hnum'.
      * cbn [edges node_layer].
        assert (Hcr : concl_label ≠ rule_node).
        { intros ->. by apply (layered_facts g1 Hlay1) in Hconcl. }
        intros u v Huv. rewrite !elem_of_app in Huv. destruct Huv as [Huv|[Huv|Huv]].
        -- destruct (Hup1 u v Huv) as (ku & kv & Hu & Hv & Hlt).
           exists ku, kv.
           rewrite Hedges1 in Huv.
           destruct (Hup u v Huv) as (ku' & kv' & Hu' & Hv' & _).
           rewrite !(lookup_insert_ne _ concl_label) by congruence.
           rewrite !(lookup_insert_ne _ rule_node) by congruence.
           done.
        -- apply list_elem_of_fmap in Huv as (q & [= -> ->] & Hq).
           destruct (Hvalid q Hq) as [Hfact Hqc].
           destruct (Hlookup q Hq) as (kq & Hkq & Hin).
           apply Hmax in Hin.
           exists kq, (max_prem_layer + 1).
           rewrite (lookup_insert_ne _ concl_label q) by done.
           rewrite (lookup_insert_ne _ rule_node q) by congruence.
           rewrite (lookup_insert_ne _ concl_label rule_node) by done.
           rewrite lookup_insert_eq. split; [done|]. split; [done|]. lia.
        -- apply list_elem_of_singleton in Huv. injection Huv as -> ->.
           exists (max_prem_layer + 1), (max_prem_layer + 1 + 1).
           rewrite (lookup_insert_ne _ concl_label rule_node) by done.
           rewrite !lookup_insert_eq. split; [done|]. split; [done|]. lia.
Qed.

Lemma parse_lines_ranked g proof_lines :
  ranked g →
  (∀ line l, line ∈ proof_lines → l ∈ line_labels line → ¬ rule_like l) →
  NoDup (conclusions proof_lines).*1 →
  (∀ l, l ∈ (conclusions proof_lines).*1 → l ∉ fact_nodes g) →
  (∀ line, line ∈ proof_lines → ¬ self_citing line) →
  ∃ g', parse_lines g proof_lines = Ok g' ∧ ranked g'.
Proof.
  revert g. induction proof_lines as [|line proof_lines IH];
    intros g Hg Hlabels Hdup Hnew Hself.
  - by exists g.
  - change (line :: proof_lines) with ([line] ++ proof_lines) in Hdup, Hnew.
    unfold conclusions in Hdup, Hnew. rewrite bind_app, fmap_app in Hdup, Hnew.
    fold (conclusions [line]) in Hdup, Hnew.
    fold (conclusions proof_lines) in Hdup, Hnew.
    apply NoDup_app in Hdup as (_ & Hdisjoint & Hdup).
    destruct (parse_line_ranked g line Hg) as (g1 & Hline & Hg1 & Hfacts).
    { intros l. apply Hlabels. apply list_elem_of_here. }
    { intros l Hl. apply Hnew, elem_of_app. by left. }
    { apply Hself, list_elem_of_here. }
    cbn [parse_lines]. rewrite Hline. apply IH; try done.
    + intros line' l Hline'. apply Hlabels. by apply list_elem_of_further.
    + intros l Hl. rewrite Hfacts. intros [Hold|Hnow%elem_of_list_to_set]%elem_of_union.
      * revert Hold. apply Hnew, elem_of_app. by right.
      * by apply (Hdisjoint l).
    + intros line' Hline'. apply Hself. by apply list_elem_of_further.
Qed.

(** X17. In a proof whose labels are three-digit labels, where every line
    concludes a label that is neither initial nor concluded by another line,
    and no line cites its own conclusion, every edge of the graph
    [parse_proof_relations] returns goes from a lower layer to a higher one:
    a premise lies below its rule node and a rule node below its
    conclusion. *)
Theorem edges_go_upward (proof_lines : list proof_line)
    (initial_stmt_map : gmap string string) :
  (∀ l, l ∈ dom initial_stmt_map → is_label l = true) →
  (∀ line l, line ∈ proof_lines → l ∈ line_labels line → is_label l = true) →
  NoDup (conclusions proof_lines).*1 →
  (∀ l, l ∈ (conclusions proof_lines).*1 → l ∉ dom initial_stmt_map) →
  (∀ line, line ∈ proof_lines → ¬ self_citing line) →
  ∃ g, parse_proof_relations proof_lines initial_stmt_map = Ok g ∧
       upward (edges g) (node_layer g).
Proof.
  intros Hinitial Hlabels Hdup Hnew Hself.
  destruct (parse_lines_ranked
              (mkGraph initial_stmt_map (dom initial_stmt_map) ∅ []
                       (gset_to_gmap 1 (dom initial_stmt_map)) (dom initial_stmt_map))
              proof_lines) as (g & Hparse & Hg); try done.
  - split.
    + apply initial_layered. intros l Hl. by apply is_label_not_rule_like, Hinitial.
    + apply rule_numbered_empty.
    + intros u v Huv. by apply elem_of_nil in Huv.
  - intros line l Hline Hl. by apply is_label_not_rule_like, (Hlabels line).
  - exists g. split; [done|]. by destruct Hg.
Qed.

Lemma edges_go_upward_witness :
  ∃ g, parse_proof_relations [sound_line] problem_facts = Ok g ∧
       upward (edges g) (node_layer g).
Proof.
  apply edges_go_upward.
  - intros l Hl. unfold problem_facts in Hl. rewrite dom_singleton_L in Hl.
    by apply elem_of_singleton in Hl as ->.
  - intros line l Hline%list_elem_of_singleton Hl. subst line. simpl in Hl.
    repeat (apply elem_of_cons in Hl as [->|Hl]; [reflexivity|]).
    by apply elem_of_nil in Hl.
  - apply NoDup_singleton.
  - intros l Hl%list_elem_of_singleton. subst l.
    unfold problem_facts. rewrite dom_singleton_L. by intros [=]%elem_of_singleton.
  - intros line Hline%list_elem_of_singleton. subst line. cbn [self_citing sound_line].
    by intros [=]%list_elem_of_singleton.
Defined.


(** X18. On an input whose labels are three-digit labels, the nodes
    [export_to_json] writes have pairwise different ids, in whatever order
    the two sets are walked: no fact label is the name of a rule node. *)
Theorem export_to_json_ids_distinct (proof_lines : list proof_line)
    (initial_stmt_map : gmap string string) :
  (∀ l, l ∈ dom initial_stmt_map → is_label l = true) →
  (∀ line l, line ∈ proof_lines → l ∈ line_labels line → is_label l = true) →
  ∃ g, parse_proof_relations proof_lines initial_stmt_map = Ok g ∧
    ∀ (facts rules : list string) (layer : gmap string Z),
      facts ≡ₚ elements (fact_nodes g) → rules ≡ₚ elements (rule_nodes g) →
      ∃ data,
        export_json_data (stmt_map g) facts rules (edges g) layer (initial_fact_nodes g)
          = Ok data ∧
        NoDup (nd_id <$> json_nodes data).
Proof.
  intros Hinitial Hlabels.
  destruct (parse_lines_layered
              (mkGraph initial_stmt_map (dom initial_stmt_map) ∅ []
                       (gset_to_gmap 1 (dom initial_stmt_map)) (dom initial_stmt_map))
              proof_lines) as (g & Hparse & Hg).
  { apply initial_layered. intros l Hl. by apply is_label_not_rule_like, Hinitial. }
  { intros line l Hline Hl. by apply is_label_not_rule_like, (Hlabels line). }
  exists g. split; [done|]. intros facts rules layer Hfacts Hrules.
  destruct (fact_records_Ok (stmt_map g) layer (initial_fact_nodes g) facts)
    as (nodes & Hnodes & Hids & _).
  { intros l Hl. rewrite Hfacts in Hl. apply elem_of_elements in Hl.
    apply elem_of_dom. by rewrite (layered_stmts g Hg). }
  unfold export_json_data. rewrite Hnodes. eexists. split; [done|].
  cbn [json_nodes]. rewrite fmap_app, Hids, rule_records_ids.
  apply NoDup_app. split; [|split].
  - rewrite Hfacts. apply NoDup_elements.
  - intros x Hx Hx'. rewrite Hfacts in Hx. rewrite Hrules in Hx'.
    apply elem_of_elements in Hx, Hx'.
    apply (layered_rules g Hg) in Hx'. by apply (layered_facts g Hg) in Hx.
  - rewrite Hrules. apply NoDup_elements.
Qed.

Lemma export_to_json_ids_distinct_witness :
  ∃ g, parse_proof_relations [sound_line] problem_facts = Ok g ∧
    ∀ (facts rules : list string) (layer : gmap string Z),
      facts ≡ₚ elements (fact_nodes g) → rules ≡ₚ elements (rule_nodes g) →
      ∃ data,
        export_json_data (stmt_map g) facts rules (edges g) layer (initial_fact_nodes g)
          = Ok data ∧
        NoDup (nd_id <$> json_nodes data).
Proof.
  apply export_to_json_ids_distinct.
  - intros l Hl. unfold problem_facts in Hl. rewrite dom_singleton_L in Hl.
    by apply elem_of_singleton in Hl as ->.
  - intros line l Hline%list_elem_of_singleton Hl. subst line. simpl in Hl.
    repeat (apply elem_of_cons in Hl as [->|Hl]; [reflexivity|]).
    by apply elem_of_nil in Hl.
Defined.
